(** * node-hashring: a shallow embedding of [index.js]

    The ring of [HashRing] (continuum construction, lookup by binary search,
    the lookup cache, and the mutations add / remove / swap / reset) as Rocq
    functions over an explicit instance state, with the properties of the
    specification proved about them.

    JavaScript numbers that take part in arithmetic on weights are IEEE-754
    doubles ([PrimFloat.float]); ring coordinates and array indices are
    integers ([Z]); objects used as dictionaries are [gmap]s; arrays are
    lists. *)

From Stdlib Require Import ZArith Lia Floats.
From stdpp Require Import gmap strings list fin_maps pretty sorting.

Local Open Scope Z_scope.

(** ** Outcomes of a call

    A method either returns, raises a [TypeError] (a property read on
    [undefined]), or never returns (a loop whose bound is [Infinity]). *)

Inductive result (A : Type) : Type :=
| Ret (a : A)
| Throw
| Diverge.

Arguments Ret {A} a.
Arguments Throw {A}.
Arguments Diverge {A}.

#[global] Instance result_ret : MRet result := λ A a, Ret a.

#[global] Instance result_bind : MBind result := λ A B k m,
  match m with
  | Ret a => k a
  | Throw => Throw
  | Diverge => Diverge
  end.

#[global] Instance result_fmap : FMap result := λ A B f m,
  match m with
  | Ret a => Ret (f a)
  | Throw => Throw
  | Diverge => Diverge
  end.

(** ** JavaScript numbers *)

(** The value of an own property of the [vnodes] dictionary: a number, or
    [undefined] (what [swap] stores when [vnodes[from]] is missing). *)
Inductive jsval : Type :=
| Undefined
| Number (x : float).

(** [n] as a double (array lengths; exact below 2^53). *)
Definition float_of_nat (n : nat) : float :=
  PrimFloat.of_uint63 (Uint63.of_Z (Z.of_nat n)).

(** A number is falsy when it is 0, -0 or NaN. *)
Definition truthy (x : float) : bool := negb (is_nan x || is_zero x).

(** [v || d] for a dictionary read [v] and a number [d]. *)
Definition or_default (v : option jsval) (d : float) : float :=
  match v with
  | Some (Number x) => if truthy x then x else d
  | Some Undefined | None => d
  end.

(** The result of [Math.floor]: an integer, or one of the values [floor]
    passes through. *)
Inductive floored : Type :=
| Int (z : Z)
| PosInf
| NegInf
| NaN.

Definition Math_floor (x : float) : floored :=
  match Prim2SF x with
  | S754_nan => NaN
  | S754_zero _ => Int 0
  | S754_infinity false => PosInf
  | S754_infinity true => NegInf
  | S754_finite false m e => Int (Z.shiftl (Z.pos m) e)
  | S754_finite true m e => Int (Z.shiftl (Z.neg m) e)
  end.

(** The number of turns of [for (var i = 0; i < length; i++)]: [i < NaN] is
    false, and [i < Infinity] never is. *)
Definition for_turns (length : floored) : result nat :=
  match length with
  | Int z => Ret (Z.to_nat z)
  | PosInf => Diverge
  | NegInf | NaN => Ret 0%nat
  end.

(** The operand conversion of [>>]: a number as a signed 32-bit integer. *)
Definition ToInt32 (z : Z) : Z := (z + 2 ^ 31) mod 2 ^ 32 - 2 ^ 31.

(** ** Data *)

(** A server as the connection parser returns it; [s_string] is the
    canonical id ([server.string]), [s_vnodes] the number the [vnodes]
    extension stored on it (0 when the descriptor gave none). *)
Record Server : Type := {
  s_string : string;
  s_host : string;
  s_port : string;
  s_weight : float;
  s_vnodes : float
}.

(** [function Node(hashvalue, server)]. *)
Record Node : Type := {
  value : Z;
  server : string
}.

(** The lookup cache ([simple-lru-cache]): at most [maxSize] entries, most
    recently used first. The ring needs [get], [set], [forEach], [reset]. *)
Record SimpleCache : Type := {
  maxSize : nat;
  entries : list (string * string)
}.

Fixpoint assoc (key : string) (es : list (string * string)) : option string :=
  match es with
  | [] => None
  | e :: es' => if decide (e.1 = key) then Some e.2 else assoc key es'
  end.

Definition cache_lookup (key : string) (c : SimpleCache) : option string :=
  assoc key (entries c).

Definition cache_without (key : string) (es : list (string * string))
  : list (string * string) :=
  filter (λ e, e.1 ≠ key) es.

(** [cache.set(key, value)]: the entry becomes the most recent one; the
    least recent entries beyond [maxSize] are dropped. *)
Definition cache_set (key val : string) (c : SimpleCache) : SimpleCache :=
  {| maxSize := maxSize c;
     entries := take (maxSize c) ((key, val) :: cache_without key (entries c)) |}.

(** [cache.get(key)]: a hit makes the entry the most recent one. *)
Definition cache_get (key : string) (c : SimpleCache)
  : option string * SimpleCache :=
  match cache_lookup key c with
  | Some v =>
      (Some v, {| maxSize := maxSize c;
                  entries := (key, v) :: cache_without key (entries c) |})
  | None => (None, c)
  end.

Definition cache_reset (c : SimpleCache) : SimpleCache :=
  {| maxSize := maxSize c; entries := [] |}.

(** [cache.forEach(fn)] over the entries present when it starts. *)
Definition cache_forEach (fn : string → string → SimpleCache → SimpleCache)
    (c : SimpleCache) : SimpleCache :=
  foldl (λ acc e, fn e.2 e.1 acc) c (entries c).

(** What [this.hash(key)] hands back: a string, held as its UTF-16 code
    units (a binary string has one unit below 256 per byte), or a [Buffer],
    held as its bytes. *)
Inductive hashed : Type :=
| JsString (units : list Z)
| Buffer (bytes : list Z).

(** The instance: the configuration, the digest provider [hash] (the
    characters of [this.hash(key).toString()] as their char codes), the ring
    with its recorded [size], the server set with the vnode dictionary, and
    the cache. *)
Record HashRing : Type := {
  pps : float;
  vnode : float;
  hash : string → hashed;
  replicas : nat;
  ring : list Node;
  size : Z;
  vnodes : gmap string jsval;
  servers : list Server;
  cache : SimpleCache
}.

Definition with_ring (r : list Node) (n : Z) (h : HashRing) : HashRing :=
  {| pps := pps h; vnode := vnode h; hash := hash h; replicas := replicas h;
     ring := r; size := n;
     vnodes := vnodes h; servers := servers h; cache := cache h |}.

Definition with_cache (c : SimpleCache) (h : HashRing) : HashRing :=
  {| pps := pps h; vnode := vnode h; hash := hash h; replicas := replicas h;
     ring := ring h; size := size h;
     vnodes := vnodes h; servers := servers h; cache := c |}.

Definition with_servers (vs : gmap string jsval) (ss : list Server)
    (h : HashRing) : HashRing :=
  {| pps := pps h; vnode := vnode h; hash := hash h; replicas := replicas h;
     ring := ring h; size := size h;
     vnodes := vs; servers := ss; cache := cache h |}.

(** ** Hashing *)

(** Modelled from the spec: the native addon [build/Release/hashvalue] is
    not part of the sources. Its [hash(a, b, c, d)] packs four digest bytes
    into an unsigned 32-bit coordinate, [a] lowest:
    [value = digest[o+3] + digest[o+2]*2^8 + digest[o+1]*2^16 + digest[o]*2^24]
    at the call [hash(x[o+3], x[o+2], x[o+1], x[o])]. *)
Definition hashValue_hash (a b c d : Z) : Z :=
  (a + b * 2 ^ 8 + c * 2 ^ 16 + d * 2 ^ 24) mod 2 ^ 32.

(** [x[k]] handed to the addon: a missing element is [undefined], which a
    conversion to an integer takes to 0. *)
Definition byte_at (x : list Z) (k : nat) : Z := default 0 (x !! k).

(** The UTF-16 code units of a code point: itself, or a surrogate pair. *)
Definition code_units (cp : Z) : list Z :=
  if cp <? 65536 then [cp]
  else [55296 + Z.shiftr (cp - 65536) 10; 56320 + Z.land (cp - 65536) 1023].

(** The state of the UTF-8 decoder inside a sequence: the code point read
    so far, the number of bytes it still needs, and the bounds on the next
    byte. *)
Record decoder : Type := {
  code_point : Z;
  needed : nat;
  lower : Z;
  upper : Z
}.

Definition decoder_start : decoder :=
  {| code_point := 0; needed := 0; lower := 128; upper := 191 |}.

(** U+FFFD, written for every ill-formed sequence. *)
Definition replacement : Z := 65533.

(** A byte read when no sequence is open: the units written and the state
    after it. *)
Definition utf8_lead (b : Z) : list Z * decoder :=
  if b <=? 127 then ([b], decoder_start)
  else if (194 <=? b) && (b <=? 223) then
    ([], {| code_point := Z.land b 31; needed := 1;
            lower := 128; upper := 191 |})
  else if (224 <=? b) && (b <=? 239) then
    ([], {| code_point := Z.land b 15; needed := 2;
            lower := if b =? 224 then 160 else 128;
            upper := if b =? 237 then 159 else 191 |})
  else if (240 <=? b) && (b <=? 244) then
    ([], {| code_point := Z.land b 7; needed := 3;
            lower := if b =? 240 then 144 else 128;
            upper := if b =? 244 then 143 else 191 |})
  else ([replacement], decoder_start).

(** The UTF-8 decoder of the Encoding Standard, which [Buffer] follows: a
    byte that cannot continue the open sequence ends it with U+FFFD and is
    read again as the start of the next one. *)
Fixpoint utf8_decode (st : decoder) (bs : list Z) : list Z :=
  match bs with
  | [] => match needed st with O => [] | S _ => [replacement] end
  | b :: bs' =>
      match needed st with
      | O => let (out, st') := utf8_lead b in out ++ utf8_decode st' bs'
      | S n =>
          if (lower st <=? b) && (b <=? upper st) then
            let cp := Z.lor (Z.shiftl (code_point st) 6) (Z.land b 63) in
            match n with
            | O => code_units cp ++ utf8_decode decoder_start bs'
            | S _ =>
                utf8_decode {| code_point := cp; needed := n;
                               lower := 128; upper := 191 |} bs'
            end
          else
            let (out, st') := utf8_lead b in
            replacement :: out ++ utf8_decode st' bs'
      end
  end.

(** [.toString()]: a string is returned as it is, a [Buffer] is decoded as
    UTF-8. *)
Definition toString (v : hashed) : list Z :=
  match v with
  | JsString units => units
  | Buffer bytes => utf8_decode decoder_start bytes
  end.

(** [.split('')]: one string per code unit. *)
Definition split (s : list Z) : list (list Z) := (λ u, [u]) <$> s.

(** [char.charCodeAt(i)]; [None] is [NaN], past the end of the string. *)
Definition charCodeAt (char : list Z) (i : nat) : option Z := char !! i.

(** [HashRing.prototype.digest]:
    [this.hash(key + '').toString().split('').map(charCode)], the char codes
    of the hash of [key] as a string. The pieces of [split] are never empty,
    so no [NaN] comes up. *)
Definition digest (h : HashRing) (key : string) : list Z :=
  omap (λ char, charCodeAt char 0) (split (toString (hash h key))).

(** The coordinate of the quartet [j] of a digest [x]:
    [hashValue.hash(x[3 + j * 4], x[2 + j * 4], x[1 + j * 4], x[j * 4])]. *)
Definition quartet (x : list Z) (j : nat) : Z :=
  hashValue_hash (byte_at x (3 + j * 4)) (byte_at x (2 + j * 4))
                 (byte_at x (1 + j * 4)) (byte_at x (j * 4)).

(** [HashRing.prototype.hashValue]. *)
Definition hashValue (h : HashRing) (key : string) : Z :=
  let x := digest h key in
  hashValue_hash (byte_at x 3) (byte_at x 2) (byte_at x 1) (byte_at x 0).

(** ** The continuum *)

(** [servers.reduce(function (total, server) { return total + server.weight }, 0)]. *)
Definition total_weight (ss : list Server) : float :=
  foldl (λ total srv, PrimFloat.add total (s_weight srv)) 0%float ss.

(** [Math.floor(percentage * vnodes * servers.length)] for one server. *)
Definition points_length (h : HashRing) (srv : Server) : floored :=
  let percentage := PrimFloat.div (s_weight srv) (total_weight (servers h)) in
  let vn := or_default (vnodes h !! s_string srv) (vnode h) in
  Math_floor (PrimFloat.mul (PrimFloat.mul percentage vn)
                            (float_of_nat (length (servers h)))).

(** The inner loop over the replicas of one digest. *)
Definition replica_nodes (h : HashRing) (srv : Server) (i : nat) : list Node :=
  let x := digest h (s_string srv +:+ "-" +:+ pretty i) in
  (λ j, {| value := quartet x j; server := s_string srv |}) <$> seq 0 (replicas h).

(** The nodes one server places, in the order they are written. *)
Definition server_nodes (h : HashRing) (srv : Server) : result (list Node) :=
  n ← for_turns (points_length h srv);
  mret (seq 0 n ≫= replica_nodes h srv).

(** [servers.forEach(...)]: the nodes of all servers, in order. *)
Fixpoint placed_nodes (h : HashRing) (ss : list Server) : result (list Node) :=
  match ss with
  | [] => mret []
  | srv :: ss' =>
      ns ← server_nodes h srv;
      rest ← placed_nodes h ss';
      mret (ns ++ rest)
  end.

(** [self.ring[index] = ...] for [index = 0, 1, ...]: the ring is
    overwritten from its start and grows when the writes pass its end. *)
Definition write_from_start (ns old : list Node) : list Node :=
  ns ++ drop (length ns) old.

(** [ring.sort(function (a, b) { ... a.value < b.value ... })]: ascending by
    [value]; nodes that compare equal keep their order. *)
Fixpoint insert_node (n : Node) (l : list Node) : list Node :=
  match l with
  | [] => [n]
  | m :: l' =>
      if value n <=? value m then n :: l else m :: insert_node n l'
  end.

Definition sort_ring (l : list Node) : list Node :=
  foldr insert_node [] l.

(** [HashRing.prototype.continuum]. *)
Definition continuum (h : HashRing) : result HashRing :=
  if bool_decide (servers h = []) then mret h
  else
    ns ← placed_nodes h (servers h);
    let r := sort_ring (write_from_start ns (ring h)) in
    mret (with_ring r (Z.of_nat (length r)) h).

(** ** Lookup *)

(** [ring[i]] for a number [i]: [undefined] outside the array. *)
Definition ring_at (r : list Node) (i : Z) : option Node :=
  if i <? 0 then None else r !! Z.to_nat i.

(** [ring[i].value]: a property read, which throws on [undefined]. *)
Definition value_at (r : list Node) (i : Z) : result Z :=
  match ring_at r i with
  | Some node => Ret (value node)
  | None => Throw
  end.

(** The [while (true)] loop of [find], from the bounds [low] and [high];
    [fuel] bounds the number of turns, and running out of it is reported as
    [Diverge]. *)
Fixpoint find_loop (fuel : nat) (h : HashRing) (hv low high : Z) : result Z :=
  match fuel with
  | O => Diverge
  | S fuel' =>
      let mid := Z.shiftr (ToInt32 (low + high)) 1 in
      if mid =? size h then Ret 0
      else
        middle ← value_at (ring h) mid;
        prev ← (if mid =? 0 then Ret 0 else value_at (ring h) (mid - 1));
        if (hv <=? middle) && (prev <? hv) then Ret mid
        else
          let low' := if middle <? hv then mid + 1 else low in
          let high' := if middle <? hv then high else mid - 1 in
          if high' <? low' then Ret 0
          else find_loop fuel' h hv low' high'
  end.

(** [HashRing.prototype.find]: the loop started at [low = 0],
    [high = this.size]. The bounds close in by at least one per turn, so
    [size + 1] turns are enough (see [find_returns]). *)
Definition find (h : HashRing) (hv : Z) : result Z :=
  find_loop (S (Z.to_nat (size h))) h hv 0 (size h).

(** [HashRing.prototype.get]: the server of [key], [None] for [undefined],
    with the instance after the call (the cache is touched or filled). An
    empty string from the cache is falsy and is looked up again. *)
Definition get (key : string) (h : HashRing)
  : result (option string * HashRing) :=
  let (hit, c) := cache_get key (cache h) in
  let h1 := with_cache c h in
  match hit with
  | Some (String a s) => Ret (Some (String a s), h1)
  | Some EmptyString | None =>
      i ← find h1 (hashValue h1 key);
      match ring_at (ring h1) i with
      | None => Ret (None, h1)
      | Some node =>
          Ret (Some (server node),
               with_cache (cache_set key (server node) (cache h1)) h1)
      end
  end.

(** One of the two collecting loops of [range], over the indices [idx];
    [inl] is a [return] from inside the loop, [inr] its normal end. *)
Fixpoint collect (r : list Node) (sz : nat) (unique : bool)
    (idx : list nat) (acc : list string) : result (list string + list string) :=
  match idx with
  | [] => Ret (inr acc)
  | i :: idx' =>
      match r !! i with
      | None => Throw
      | Some node =>
          let acc' :=
            if unique && bool_decide (server node ∈ acc) then acc
            else acc ++ [server node] in
          if bool_decide (length acc' = sz) then Ret (inl acc')
          else collect r sz unique idx' acc'
      end
  end.

(** [HashRing.prototype.range]; an omitted argument is [None]. *)
Definition range (key : string) (sz : option nat) (unique : option bool)
    (h : HashRing) : result (list string) :=
  if size h =? 0 then Ret []
  else
    let sz := match sz with
              | Some (S n) => S n
              | Some O | None => length (servers h)
              end in
    let unique := default true unique in
    position ← find h (hashValue h key);
    let len := length (ring h) in
    let p := Z.to_nat position in
    first ← collect (ring h) sz unique (seq p (len - p)) [];
    match first with
    | inl res => Ret res
    | inr acc =>
        second ← collect (ring h) sz unique (seq 0 p) acc;
        match second with
        | inl res => Ret res
        | inr acc' => Ret acc'
        end
    end.

(** ** Mutations *)

(** [HashRing.prototype.reset]. *)
Definition reset (h : HashRing) : HashRing :=
  with_cache (cache_reset (cache h)) (with_ring [] 0 h).

(** [HashRing.prototype.end]. *)
Definition end_ (h : HashRing) : HashRing :=
  with_servers ∅ [] (reset h).

(** The label of a node or a cache entry after [swap(from, to)]. *)
Definition relabel (from to : string) (s : string) : string :=
  if decide (s = from) then to else s.

(** [HashRing.prototype.swap]; [connection] is the parsed [to]. *)
Definition swap (from to : string) (connection : Server) (h : HashRing)
  : HashRing :=
  let r := (λ node, if decide (server node = from)
                    then {| value := value node; server := to |}
                    else node) <$> ring h in
  let c := cache_forEach
             (λ val key acc,
                if decide (val = from) then cache_set key to acc else acc)
             (cache h) in
  let vs := delete from (<[to := default Undefined (vnodes h !! from)]> (vnodes h)) in
  let ss := (λ srv, if decide (s_string srv = from)
                    then {| s_string := to;
                            s_host := s_host connection;
                            s_port := s_port connection;
                            s_weight := s_weight srv;
                            s_vnodes := s_vnodes srv |}
                    else srv) <$> servers h in
  with_servers vs ss (with_cache c (with_ring r (size h) h)).

(** The [vnodes] dictionary the parser returns for a list of servers. *)
Definition parse_vnodes (ss : list Server) : gmap string jsval :=
  foldl (λ m srv, <[s_string srv := Number (s_vnodes srv)]> m) ∅ ss.

(** [connections[server.string] = server] on the dictionary
    [Object.create(null)], held as the list of its values in the order in
    which their keys were first written ([own_order] gives the order in
    which the keys are enumerated). *)
Fixpoint connections_set (srv : Server) (conns : list Server) : list Server :=
  match conns with
  | [] => [srv]
  | c :: conns' =>
      if decide (s_string c = s_string srv) then srv :: conns'
      else c :: connections_set srv conns'
  end.

Definition connections_has (key : string) (conns : list Server) : bool :=
  bool_decide (key ∈ s_string <$> conns).

(** The value of a decimal digit. *)
Definition digit_of (a : Ascii.ascii) : option N :=
  let n := Ascii.N_of_ascii a in
  if ((48 <=? n) && (n <=? 57))%N then Some (n - 48)%N else None.

Fixpoint digits_of (s : string) (acc : N) : option N :=
  match s with
  | EmptyString => Some acc
  | String a s' =>
      match digit_of a with
      | Some d => digits_of s' (acc * 10 + d)%N
      | None => None
      end
  end.

(** A property key is an array index when it is the canonical decimal
    form (no sign, no leading zero) of an integer below [2^32 - 1]. *)
Definition array_index (s : string) : option N :=
  match s with
  | EmptyString => None
  | String a s' =>
      match digits_of s 0 with
      | Some n =>
          if (bool_decide (s' = "") || bool_decide (digit_of a ≠ Some 0%N))
             && (n <? 2 ^ 32 - 1)%N
          then Some n else None
      | None => None
      end
  end.

Definition index_of (srv : Server) : N :=
  default 0%N (array_index (s_string srv)).

Fixpoint insert_indexed (srv : Server) (l : list Server) : list Server :=
  match l with
  | [] => [srv]
  | c :: l' =>
      if (index_of srv <=? index_of c)%N then srv :: l
      else c :: insert_indexed srv l'
  end.

Definition sort_indexed (l : list Server) : list Server :=
  foldr insert_indexed [] l.

(** The order in which the own keys of an object are enumerated (by the
    parser, when it is handed [connections]): the keys that are array
    indices first, in ascending numeric order, then the other keys in the
    order in which they were first written. *)
Definition own_order (conns : list Server) : list Server :=
  sort_indexed (filter (λ srv, is_Some (array_index (s_string srv))) conns)
  ++ filter (λ srv, array_index (s_string srv) = None) conns.

(** The first half of [add]: the current servers and the new ones that are
    not yet present are collected in [connections], which is parsed again
    (its keys enumerated) into [this.vnodes] and [this.servers]; [news] is
    the parsed argument. *)
Definition add_servers (news : list Server) (h : HashRing) : HashRing :=
  let current := foldl (λ conns srv, connections_set srv conns) [] (servers h) in
  let conns :=
    foldl (λ conns srv,
             if connections_has (s_string srv) conns then conns
             else connections_set srv conns)
          current news in
  with_servers (parse_vnodes (own_order conns)) (own_order conns) h.

(** [HashRing.prototype.add]. *)
Definition add (news : list Server) (h : HashRing) : result HashRing :=
  continuum (reset (add_servers news h)).

(** The first half of [remove]: the server is dropped from [this.vnodes]
    and [this.servers]; [s] is the [string] of the parsed argument. *)
Definition remove_server (s : string) (h : HashRing) : HashRing :=
  let vs := delete s (vnodes h) in
  let ss := filter (λ srv, s_string srv ≠ s) (servers h) in
  with_servers vs ss h.

(** [HashRing.prototype.remove]. *)
Definition remove (s : string) (h : HashRing) : result HashRing :=
  continuum (reset (remove_server s h)).

(** ** Construction *)

Record Options : Type := {
  points_per_server : option float;
  vnode_count : option float;
  compatibility : option string;
  maxCacheSize : option nat
}.

(** [options] left out. *)
Definition no_options : Options :=
  {| points_per_server := None; vnode_count := None;
     compatibility := None; maxCacheSize := None |}.

(** [options[name] || d]. *)
Definition option_or (o : option float) (d : float) : float :=
  match o with
  | Some x => if truthy x then x else d
  | None => d
  end.

(** The instance [function HashRing(servers, algorithm, options)] sets up
    before it generates the continuum; [ss] is the parsed [servers],
    [algorithm] the digest provider. *)
Definition initial (ss : list Server) (algorithm : string → hashed)
    (options : Options) : HashRing :=
    {| pps := option_or (points_per_server options) 160;
       vnode := option_or (vnode_count options) 40;
       hash := algorithm;
       replicas := match compatibility options with
                   | Some c => if decide (c = "hash_ring") then 3%nat else 4%nat
                   | None => 4%nat
                   end;
       ring := [];
       size := 0;
       vnodes := parse_vnodes ss;
       servers := ss;
       cache := {| maxSize := match maxCacheSize options with
                              | Some (S n) => S n
                              | Some O | None => 5000%nat
                              end;
                   entries := [] |} |}.

(** [new HashRing(servers, algorithm, options)]. *)
Definition construct (ss : list Server) (algorithm : string → hashed)
    (options : Options) : result HashRing :=
  continuum (initial ss algorithm options).

(** ** Diagnostics *)

(** The loop of [points] over the indices [idx]: the coordinate of each
    node whose server is a key of [nodes] is pushed on that server's list. *)
Fixpoint points_loop (r : list Node) (idx : list nat)
    (nodes : gmap string (list Z)) : result (gmap string (list Z)) :=
  match idx with
  | [] => Ret nodes
  | i :: idx' =>
      match r !! i with
      | None => Throw
      | Some node =>
          points_loop r idx'
            (match nodes !! server node with
             | Some vs => <[server node := vs ++ [value node]]> nodes
             | None => nodes
             end)
      end
  end.

(** [HashRing.prototype.points]; [None] is an argument that is not an
    array, for which the keys of [this.vnodes] are taken. *)
Definition points (arg : option (list string)) (h : HashRing)
  : result (gmap string (list Z)) :=
  let ss := match arg with
            | Some l => l
            | None => elements (dom (vnodes h))
            end in
  let nodes := foldl (λ nodes srv, <[srv := []]> nodes) ∅ ss in
  points_loop (ring h) (seq 0 (Z.to_nat (size h))) nodes.

(** ** The legacy aliases *)

(** A call of one of the aliases set up at the end of the file. *)
Inductive legacy_call : Type :=
| ReplaceServer (from to : string)
| Replace (from to : string)
| RemoveServer (s : string)
| AddServer (news : list Server)
| GetNode (key : string)
| GetNodePosition (hv : Z)
| Position (hv : Z).

(** [api.from] and [api.to] of the alias called. *)
Definition api_from (c : legacy_call) : string :=
  match c with
  | ReplaceServer _ _ => "replaceServer"
  | Replace _ _ => "replace"
  | RemoveServer _ => "removeServer"
  | AddServer _ => "addServer"
  | GetNode _ => "getNode"
  | GetNodePosition _ => "getNodePosition"
  | Position _ => "position"
  end.

Definition api_to (c : legacy_call) : option string :=
  match c with
  | ReplaceServer _ _ | Replace _ _ => None
  | RemoveServer _ => Some "remove"
  | AddServer _ => Some "add"
  | GetNode _ => Some "get"
  | GetNodePosition _ | Position _ => Some "find"
  end.

(** What is shared by all instances: the [notified] flag of each alias
    (the names whose flag is set) and the lines written by [console.warn]. *)
Record Legacy : Type := {
  notified : gset string;
  console : list string
}.

Definition no_legacy : Legacy := {| notified := ∅; console := [] |}.

(** The first part of [depricating]: the note, written once per alias. *)
Definition notify (c : legacy_call) (l : Legacy) : Legacy :=
  if decide (api_from c ∈ notified l) then l
  else
    {| notified := {[api_from c]} ∪ notified l;
       console :=
         console l ++
         [""; "[depricated] HashRing#" +:+ api_from c +:+ " is removed.";
          match api_to c with
          | Some to => "[depricated] use HashRing#" +:+ to +:+ " as replacement."
          | None => "[depricated] the API has no replacement"
          end;
          ""] |}.

(** What a method hands back. *)
Inductive returned : Type :=
| NoValue
| This
| ServerId (s : option string)
| Index (i : Z).

(** The second part of [depricating]:
    [if (api.to) return HashRing.prototype[api.to].apply(this, arguments)],
    with the instance after the call. *)
Definition delegate (c : legacy_call) (h : HashRing)
  : result (returned * HashRing) :=
  match c with
  | ReplaceServer _ _ | Replace _ _ => Ret (NoValue, h)
  | RemoveServer s => h' ← remove s h; mret (This, h')
  | AddServer news => h' ← add news h; mret (This, h')
  | GetNode key => p ← get key h; mret (ServerId p.1, p.2)
  | GetNodePosition hv | Position hv => i ← find h hv; mret (Index i, h)
  end.

(** A call of an alias: the shared state after it, and its outcome. *)
Definition depricating (c : legacy_call) (l : Legacy) (h : HashRing)
  : Legacy * result (returned * HashRing) :=
  (notify c l, delegate c h).

(** * Specification *)

(** ** The ring order *)

Definition node_le (n m : Node) : Prop := value n ≤ value m.

#[global] Instance node_le_dec : RelDecision node_le.
Proof. intros n m. unfold node_le. apply _. Defined.

(** Sorted ascending by coordinate. *)
Definition ring_sorted (r : list Node) : Prop := StronglySorted node_le r.

#[global] Instance ring_sorted_dec r : Decision (ring_sorted r).
Proof. unfold ring_sorted. apply _. Defined.

(** The number of leading nodes below [hv]; on a sorted ring, the index of
    the first node at or above [hv], or the length when there is none. *)
Fixpoint lower_bound (r : list Node) (hv : Z) : nat :=
  match r with
  | [] => 0
  | n :: r' => if value n <? hv then S (lower_bound r' hv) else 0
  end.

(** The ring and its recorded size agree, and the indices stay clear of the
    32-bit conversion of [>>]. *)
Definition ring_sized (h : HashRing) : Prop :=
  size h = Z.of_nat (length (ring h)) ∧ size h < 2 ^ 30.

(** The node that owns [hv] on a sorted ring: the first node at or above
    [hv], and the first node of the ring when there is none. *)
Definition successor (r : list Node) (hv : Z) : option Node :=
  match r !! lower_bound r hv with
  | Some n => Some n
  | None => head r
  end.

(** The uncached part of [get]: the server that owns [key] on the ring. *)
Definition owner (h : HashRing) (key : string) : result (option string) :=
  i ← find h (hashValue h key);
  mret (server <$> ring_at (ring h) i).

(** Every cached answer is the one the ring gives. *)
Definition cache_coherent (h : HashRing) : Prop :=
  ∀ k v, cache_lookup k (cache h) = Some v → owner h k = Ret (Some v).

(** No key is cached twice, and the cache is within its bound. *)
Definition cache_wf (c : SimpleCache) : Prop :=
  NoDup (entries c).*1 ∧ (length (entries c) ≤ maxSize c)%nat.

(** The states an instance goes through: construction, then any sequence
    of public calls that change it. *)
Inductive reachable : HashRing → Prop :=
| reach_construct ss algorithm options h :
    construct ss algorithm options = Ret h → reachable h
| reach_get key h r h' :
    reachable h → get key h = Ret (r, h') → reachable h'
| reach_add news h h' :
    reachable h → add news h = Ret h' → reachable h'
| reach_remove s h h' :
    reachable h → remove s h = Ret h' → reachable h'
| reach_swap from to connection h :
    reachable h → reachable (swap from to connection h)
| reach_reset h :
    reachable h → reachable (reset h)
| reach_end h :
    reachable h → reachable (end_ h).

(** What holds of every state an instance goes through. *)
Definition invariant (h : HashRing) : Prop :=
  size h = Z.of_nat (length (ring h)) ∧
  ring_sorted (ring h) ∧
  cache_coherent h ∧
  cache_wf (cache h) ∧
  (servers h = [] → ring h = []).

(** The ids of the server set. *)
Definition ids (h : HashRing) : list string := s_string <$> servers h.

(** Every [length_i] is a number of points: a non-negative integer, as it
    is for positive weights and vnode counts. *)
Definition well_weighted (h : HashRing) : Prop :=
  Forall (λ srv, ∃ z, points_length h srv = Int z ∧ 0 ≤ z) (servers h).

(** [length_i] as an integer (0 when it is not a number of points). *)
Definition length_of (f : floored) : Z :=
  match f with
  | Int z => z
  | PosInf | NegInf | NaN => 0
  end.

(** The sum over the servers of [length_i * replicas]. *)
Definition planned_length (h : HashRing) : Z :=
  foldr (λ srv acc, length_of (points_length h srv) * Z.of_nat (replicas h) + acc)
        0 (servers h).

(** The ring is the continuum of the current server set: what a rebuild
    would produce (it is after construction, [add] and [remove]; a [swap]
    or a [reset] since then may have changed that). *)
Definition built (h : HashRing) : Prop :=
  ∃ h', continuum (reset h) = Ret h' ∧ ring h' = ring h.

(** A sequence of [get] calls, results dropped. *)
Fixpoint gets (keys : list string) (h : HashRing) : result HashRing :=
  match keys with
  | [] => Ret h
  | k :: keys' => p ← get k h; gets keys' p.2
  end.

(** The ids of [l] in the order of their first occurrence, after [acc]. *)
Definition distinct_after (acc : list string) (l : list string) : list string :=
  foldl (λ acc x, if bool_decide (x ∈ acc) then acc else acc ++ [x]) acc l.

(** The ring walked from index [p] to its end and then from its start. *)
Definition ring_walk (r : list Node) (p : nat) : list string :=
  server <$> (drop p r ++ take p r).

(** The coordinates of the nodes of [srv], in ring order. *)
Definition coordinates_of (srv : string) (r : list Node) : list Z :=
  value <$> filter (λ n, server n = srv) r.

(** Ascending, for a list of coordinates. *)
Definition ascending (l : list Z) : Prop := StronglySorted Z.le l.

(** The new servers [add] takes: those whose id is neither among [seen]
    nor earlier in the list. *)
Fixpoint fresh_servers (seen : list string) (news : list Server) : list Server :=
  match news with
  | [] => []
  | srv :: news' =>
      if bool_decide (s_string srv ∈ seen) then fresh_servers seen news'
      else srv :: fresh_servers (seen ++ [s_string srv]) news'
  end.

(** The shared state after a sequence of alias calls. *)
Definition notify_all (cs : list legacy_call) (l : Legacy) : Legacy :=
  foldl (λ l c, notify c l) l cs.

(** What is configured at construction. *)
Definition configuration (h : HashRing)
  : float * float * nat * (string → hashed) * nat :=
  (pps h, vnode h, replicas h, hash h, maxSize (cache h)).





(** No id of [ss] is an array index (an id such as [host:port] never is),
    so that a dictionary keyed by the ids lists them as they were written. *)
Definition plain_ids (ss : list Server) : Prop :=
  Forall (λ srv, array_index (s_string srv) = None) ss.

(** [options] with another value for ['points per server']. *)
Definition with_points_per_server (p : option float) (o : Options) : Options :=
  {| points_per_server := p; vnode_count := vnode_count o;
     compatibility := compatibility o; maxCacheSize := maxCacheSize o |}.

(** ** A custom digest provider and small server sets, for the examples *)

(** A digest of sixteen bytes whose four quartets are the coordinates
    [a], [b], [c], [d] (each below 256). Each quartet has one non-zero
    byte, so the order of the coordinates on the ring does not depend on
    the byte order of the packing. *)
Definition quartets (a b c d : Z) : list Z :=
  [0; 0; 0; a; 0; 0; 0; b; 0; 0; 0; c; 0; 0; 0; d].

Definition demo_table : list (string * list Z) :=
  [("A-0", quartets 10 50 90 130); ("A-1", quartets 15 55 95 135);
   ("B-0", quartets 20 60 100 140); ("B-1", quartets 25 65 105 145);
   ("S-0", quartets 30 70 110 150); ("S-1", quartets 32 72 112 152);
   ("S-2", quartets 34 74 114 154); ("D-0", quartets 27 67 107 147);
   ("k", quartets 12 0 0 0); ("j", quartets 5 0 0 0);
   ("m", quartets 200 0 0 0)].

Fixpoint table_lookup (key : string) (t : list (string * list Z))
  : option (list Z) :=
  match t with
  | [] => None
  | e :: t' => if decide (e.1 = key) then Some e.2 else table_lookup key t'
  end.

(** A hasher handed in as the [algorithm]: a table, and zeros elsewhere. *)
Definition demo_hash (key : string) : hashed :=
  JsString (default (quartets 0 0 0 0) (table_lookup key demo_table)).


Definition demo_server (id : string) (weight vnodes : float) : Server :=
  {| s_string := id; s_host := id; s_port := "11211";
     s_weight := weight; s_vnodes := vnodes |}.

Definition demo_options (vnode_count : float) : Options :=
  {| points_per_server := None; vnode_count := Some vnode_count;
     compatibility := None; maxCacheSize := None |}.

(** Servers A and B of weight 1 and S of weight 2, two vnodes each. *)
Definition demo_weighted : result HashRing :=
  construct [demo_server "A" 1 0; demo_server "B" 1 0; demo_server "S" 2 0]
            demo_hash (demo_options 2).

(** Servers A and B of weight 1, one vnode each. *)
Definition demo_pair : result HashRing :=
  construct [demo_server "A" 1 0; demo_server "B" 1 0]
            demo_hash (demo_options 1).

(** Servers A and B of weight 1, with the vnode overrides 1 and 2. *)
Definition demo_overrides : result HashRing :=
  construct [demo_server "A" 1 1; demo_server "B" 1 2]
            demo_hash no_options.

(** Servers A, B and S of weight 1, one vnode each. *)
Definition demo_equal : result HashRing :=
  construct [demo_server "A" 1 0; demo_server "B" 1 0; demo_server "S" 1 0]
            demo_hash (demo_options 1).

(** [n] servers of weight 1, before the continuum is generated. *)
Definition demo_many (n : nat) : HashRing :=
  initial ((λ i, demo_server ("s" +:+ pretty i) 1 0) <$> seq 0 n)
          demo_hash no_options.


(** The instance a construction returns (the empty instance otherwise). *)
Definition state_of (r : result HashRing) : HashRing :=
  match r with
  | Ret h => h
  | Throw | Diverge => initial [] demo_hash no_options
  end.

(** * Properties *)

Lemma ToInt32_small z : 0 ≤ z < 2 ^ 31 → ToInt32 z = z.
Proof.
  intros Hz. unfold ToInt32.
  rewrite Z.mod_small; lia.
Qed.

Lemma midpoint low high :
  0 ≤ low → low ≤ high → high < 2 ^ 30 →
  let mid := Z.shiftr (ToInt32 (low + high)) 1 in
  low ≤ mid ≤ high ∧ (mid = high → low = high).
Proof.
  intros H0 Hle Hhi mid. subst mid.
  rewrite ToInt32_small by lia.
  rewrite Z.shiftr_div_pow2 by lia.
  change (2 ^ 1) with 2.
  pose proof (Z.div_mod (low + high) 2 ltac:(lia)).
  pose proof (Z.mod_pos_bound (low + high) 2 ltac:(lia)).
  lia.
Qed.

Lemma ring_at_Some r i :
  0 ≤ i < Z.of_nat (length r) → ∃ node, ring_at r i = Some node.
Proof.
  intros Hi. unfold ring_at.
  destruct (Z.ltb_spec i 0); [lia|].
  destruct (lookup_lt_is_Some_2 r (Z.to_nat i)) as [node Hn]; [lia|].
  eauto.
Qed.

Lemma value_at_Ret r i :
  0 ≤ i < Z.of_nat (length r) →
  ∃ node, ring_at r i = Some node ∧ value_at r i = Ret (value node).
Proof.
  intros Hi. destruct (ring_at_Some r i Hi) as [node Hn].
  exists node. unfold value_at. by rewrite Hn.
Qed.

(** More fuel does not change the outcome of a loop that ended. *)
Lemma find_loop_mono fuel h hv low high :
  find_loop fuel h hv low high ≠ Diverge →
  find_loop (S fuel) h hv low high = find_loop fuel h hv low high.
Proof.
  revert low high. induction fuel as [|fuel IH]; intros low high Hnd.
  { by destruct Hnd. }
  remember (S fuel) as fuel1 eqn:Hf.
  rewrite Hf in Hnd at 1. rewrite Hf at 2.
  cbn [find_loop] in *.
  set (mid := Z.shiftr (ToInt32 (low + high)) 1) in *.
  destruct (mid =? size h); [done|].
  destruct (value_at (ring h) mid) as [middle| |]; cbn in *; try done.
  destruct (if mid =? 0 then Ret 0 else value_at (ring h) (mid - 1))
    as [prev| |]; cbn in *; try done.
  destruct ((hv <=? middle) && (prev <? hv)); [done|].
  destruct (_ <? _); [done|].
  subst fuel1. by apply IH.
Qed.

Lemma find_loop_more fuel fuel' h hv low high :
  find_loop fuel h hv low high ≠ Diverge → (fuel ≤ fuel')%nat →
  find_loop fuel' h hv low high = find_loop fuel h hv low high.
Proof.
  intros Hnd Hle. induction Hle as [|fuel' Hle IH]; [done|].
  rewrite find_loop_mono; [done|]. by rewrite IH.
Qed.

(** *** [lower_bound] on a sorted ring *)

Lemma lower_bound_le r hv : (lower_bound r hv ≤ length r)%nat.
Proof.
  induction r as [|n r IH]; cbn; [lia|].
  destruct (value n <? hv); lia.
Qed.

Lemma lower_bound_below r hv j node :
  r !! j = Some node → (j < lower_bound r hv)%nat → value node < hv.
Proof.
  revert j. induction r as [|n r IH]; intros j Hj Hlt; [done|].
  cbn in Hlt. destruct (Z.ltb_spec (value n) hv) as [Hn|Hn]; [|lia].
  destruct j as [|j]; cbn in Hj.
  - by simplify_eq.
  - apply (IH j); [done|lia].
Qed.

Lemma lower_bound_at r hv node :
  r !! lower_bound r hv = Some node → hv ≤ value node.
Proof.
  induction r as [|n r IH]; [done|].
  cbn. destruct (Z.ltb_spec (value n) hv) as [Hn|Hn]; cbn.
  - done.
  - intros ?; by simplify_eq.
Qed.

Lemma lower_bound_above r hv j node :
  ring_sorted r → r !! j = Some node → value node < hv →
  (j < lower_bound r hv)%nat.
Proof.
  intros Hs. revert j. induction Hs as [|n r Hs IH Hall]; intros j Hj Hlt; [done|].
  cbn. destruct j as [|j]; cbn in Hj.
  - simplify_eq. destruct (Z.ltb_spec (value node) hv); lia.
  - assert (value n ≤ value node) as Hle.
    { rewrite Forall_forall in Hall. apply Hall.
      by eapply list_elem_of_lookup_2. }
    destruct (Z.ltb_spec (value n) hv); [|lia].
    specialize (IH j Hj Hlt). lia.
Qed.

(** *** The loop ends, whatever the ring holds *)

Lemma find_loop_ends fuel h hv low high :
  ring_sized h →
  0 ≤ low → low ≤ high → high ≤ size h →
  (Z.to_nat (high - low) < fuel)%nat →
  ∃ i, find_loop fuel h hv low high = Ret i ∧ (i = 0 ∨ 0 ≤ i < size h).
Proof.
  intros [Hsz Hbig]. revert low high.
  induction fuel as [|fuel IH]; intros low high H0 Hle Hhi Hfuel; [lia|].
  cbn [find_loop].
  destruct (midpoint low high) as [Hmid Hmid']; [lia..|].
  set (mid := Z.shiftr (ToInt32 (low + high)) 1) in *.
  destruct (Z.eqb_spec mid (size h)) as [Hm|Hm]; [by eauto|].
  destruct (value_at_Ret (ring h) mid) as (node & _ & ->); [lia|]. cbn.
  assert (∃ prev, (if mid =? 0 then Ret 0 else value_at (ring h) (mid - 1))
                  = Ret prev) as [prev ->].
  { destruct (Z.eqb_spec mid 0); [by eauto|].
    destruct (value_at_Ret (ring h) (mid - 1)) as (p & _ & ->); [lia|]. eauto. }
  cbn.
  destruct ((hv <=? value node) && (prev <? hv)).
  { exists mid. split; [done|]. right. lia. }
  destruct (value node <? hv).
  - destruct (Z.ltb_spec high (mid + 1)); [by eauto|].
    apply IH; lia.
  - destruct (Z.ltb_spec (mid - 1) low); [by eauto|].
    apply IH; lia.
Qed.

(** *** On a sorted ring the loop returns the wrapped lower bound *)

Lemma find_loop_lower_bound fuel h hv low high :
  ring_sized h → ring_sorted (ring h) →
  0 ≤ low → low ≤ Z.of_nat (lower_bound (ring h) hv) →
  Z.of_nat (lower_bound (ring h) hv) ≤ high → high ≤ size h →
  (Z.to_nat (high - low) < fuel)%nat →
  find_loop fuel h hv low high =
    Ret (if Z.of_nat (lower_bound (ring h) hv) =? size h then 0
         else Z.of_nat (lower_bound (ring h) hv)).
Proof.
  intros [Hsz Hbig] Hsorted.
  pose proof (lower_bound_below (ring h) hv) as Hbelow.
  pose proof (lower_bound_above (ring h) hv) as Habove.
  set (lb := lower_bound (ring h) hv) in *.
  revert low high.
  induction fuel as [|fuel IH]; intros low high H0 Hlo Hhi Hsize Hfuel; [lia|].
  cbn [find_loop].
  destruct (midpoint low high) as [Hmid Hmid']; [lia..|].
  set (mid := Z.shiftr (ToInt32 (low + high)) 1) in *.
  destruct (Z.eqb_spec mid (size h)) as [Hm|Hm].
  { assert (Z.of_nat lb = size h) as -> by lia. by rewrite Z.eqb_refl. }
  destruct (value_at_Ret (ring h) mid) as (node & Hnode & ->); [lia|]. cbn.
  unfold ring_at in Hnode. destruct (Z.ltb_spec mid 0); [lia|].
  assert (hv ≤ value node → Z.of_nat lb ≤ mid) as Hle_mid.
  { intros Hge. destruct (decide (Z.of_nat lb ≤ mid)) as [|Hne]; [done|].
    specialize (Hbelow (Z.to_nat mid) node Hnode). lia. }
  assert (value node < hv → mid < Z.of_nat lb) as Hgt_mid.
  { intros Hlt. specialize (Habove (Z.to_nat mid) node Hsorted Hnode Hlt). lia. }
  destruct (Z.eqb_spec mid 0) as [Hz|Hz]; cbn.
  - (* the first node: [prev] is 0 *)
    destruct (Z.leb_spec hv (value node)) as [Hge|Hlt]; cbn.
    + assert (Z.of_nat lb = 0) as -> by lia.
      destruct (Z.eqb_spec 0 (size h)); [lia|].
      destruct (Z.ltb_spec 0 hv); [by rewrite Hz|].
      destruct (Z.ltb_spec (value node) hv); [lia|].
      destruct (Z.ltb_spec (mid - 1) low); [done|lia].
    + destruct (Z.ltb_spec (value node) hv); [|lia].
      destruct (Z.ltb_spec high (mid + 1)); [lia|].
      apply IH; lia.
  - destruct (value_at_Ret (ring h) (mid - 1)) as (pnode & Hprev & ->); [lia|].
    cbn. unfold ring_at in Hprev. destruct (Z.ltb_spec (mid - 1) 0); [lia|].
    destruct (Z.leb_spec hv (value node)) as [Hge|Hlt]; cbn.
    + destruct (Z.ltb_spec (value pnode) hv) as [Hp|Hp].
      * specialize (Habove (Z.to_nat (mid - 1)) pnode Hsorted Hprev Hp).
        assert (Z.of_nat lb = mid) as -> by lia.
        by destruct (Z.eqb_spec mid (size h)).
      * assert (Z.of_nat lb ≤ mid - 1).
        { destruct (decide (Z.of_nat lb ≤ mid - 1)) as [|Hne]; [done|].
          specialize (Hbelow (Z.to_nat (mid - 1)) pnode Hprev). lia. }
        destruct (Z.ltb_spec (value node) hv); [lia|].
        destruct (Z.ltb_spec (mid - 1) low); [lia|].
        apply IH; lia.
    + destruct (Z.ltb_spec (value node) hv); [|lia].
      destruct (Z.ltb_spec high (mid + 1)); [lia|].
      apply IH; lia.
Qed.

(** *** [find] *)

Lemma find_lower_bound h hv :
  ring_sized h → ring_sorted (ring h) →
  find h hv =
    Ret (if Z.of_nat (lower_bound (ring h) hv) =? size h then 0
         else Z.of_nat (lower_bound (ring h) hv)).
Proof.
  intros Hsz Hsorted. unfold find.
  pose proof (lower_bound_le (ring h) hv) as Hle.
  destruct Hsz as [Hsz Hbig].
  apply find_loop_lower_bound; [done|done|lia..].
Qed.

(** C1: on a non-empty ring sorted ascending by coordinate, [find] returns
    the index of the first node whose coordinate is at or above [hv]; when
    [hv] is above every coordinate it returns 0, the wraparound to the start
    of the ring. Both exits of the search that return 0 are covered: the
    answer is always one of these two. *)
Theorem find_first_at_or_above (h : HashRing) (hv : Z) :
  ring_sized h → ring_sorted (ring h) → ring h ≠ [] →
  ∃ i : nat,
    find h hv = Ret (Z.of_nat i) ∧
    ((∃ node, ring h !! i = Some node ∧ hv ≤ value node ∧
              ∀ j m, (j < i)%nat → ring h !! j = Some m → value m < hv)
     ∨ (i = 0%nat ∧ ∀ m, m ∈ ring h → value m < hv)).
Proof.
  intros Hsz Hsorted Hne.
  rewrite (find_lower_bound h hv Hsz Hsorted).
  destruct Hsz as [Hsz Hbig].
  pose proof (lower_bound_le (ring h) hv) as Hle.
  set (lb := lower_bound (ring h) hv) in *.
  destruct (Z.eqb_spec (Z.of_nat lb) (size h)) as [Heq|Hneq].
  - exists 0%nat. split; [done|]. right. split; [done|].
    intros m Hm. apply list_elem_of_lookup in Hm as [j Hj].
    apply (lower_bound_below (ring h) hv j m Hj).
    apply lookup_lt_Some in Hj. fold lb. lia.
  - exists lb. split; [done|]. left.
    destruct (lookup_lt_is_Some_2 (ring h) lb) as [node Hnode]; [lia|].
    exists node. split; [done|]. split.
    + by apply (lower_bound_at (ring h) hv).
    + intros j m Hj Hm. by apply (lower_bound_below (ring h) hv j m).
Qed.

Lemma find_first_at_or_above_witness :
  ∃ i : nat,
    find (state_of demo_weighted) 12 = Ret (Z.of_nat i) ∧
    ((∃ node, ring (state_of demo_weighted) !! i = Some node ∧
              12 ≤ value node ∧
              ∀ j m, (j < i)%nat →
                     ring (state_of demo_weighted) !! j = Some m →
                     value m < 12)
     ∨ (i = 0%nat ∧ ∀ m, m ∈ ring (state_of demo_weighted) → value m < 12)).
Proof.
  apply (find_first_at_or_above (state_of demo_weighted) 12).
  - split; vm_compute; reflexivity.
  - vm_compute. repeat constructor; discriminate.
  - vm_compute. discriminate.
Defined.

(** The loop of [find] ends within [size + 1] turns, and more turns change
    nothing. *)
Lemma find_returns (h : HashRing) (hv : Z) :
  ring_sized h →
  ∃ i : Z,
    find h hv = Ret i ∧
    (∀ fuel, (Z.to_nat (size h) < fuel)%nat →
             find_loop fuel h hv 0 (size h) = Ret i) ∧
    (i = 0 ∨ 0 ≤ i < size h).
Proof.
  intros Hsz. pose proof Hsz as [Hlen Hbig].
  destruct (find_loop_ends (S (Z.to_nat (size h))) h hv 0 (size h))
    as (i & Hi & Hrange); [done|lia..|].
  exists i. split; [done|]. split; [|done].
  intros fuel Hfuel. rewrite <- Hi.
  apply find_loop_more; [|lia]. by rewrite Hi.
Qed.

Lemma find_in_ring (h : HashRing) (hv : Z) :
  ring_sized h → ring h ≠ [] →
  ∃ i : Z, find h hv = Ret i ∧ 0 ≤ i < Z.of_nat (length (ring h)).
Proof.
  intros Hsz Hne. destruct (find_returns h hv Hsz) as (i & Hi & _ & Hrange).
  exists i. split; [done|]. destruct Hsz as [Hlen _].
  destruct (ring h); [done|]. cbn in *. lia.
Qed.

(** C10: [find] is total. Whatever the ring holds (sorted or not, empty or
    not), the loop ends: from [size + 1] turns on, every bound on the number
    of turns gives the same returned index, which is 0 on an empty ring and
    lies in [0, length) on a non-empty one. *)
Theorem find_total (h : HashRing) (hv : Z) :
  ring_sized h →
  ∃ i : Z,
    find h hv = Ret i ∧
    (∀ fuel, (Z.to_nat (size h) < fuel)%nat →
             find_loop fuel h hv 0 (size h) = Ret i) ∧
    (ring h = [] → i = 0) ∧
    (ring h ≠ [] → 0 ≤ i < Z.of_nat (length (ring h))).
Proof.
  intros Hsz. pose proof Hsz as [Hlen Hbig].
  destruct (find_returns h hv Hsz) as (i & Hi & Hfuel & Hrange).
  exists i. split; [done|]. split; [done|]. split.
  - intros Hnil. rewrite Hnil in Hlen. cbn in Hlen. lia.
  - intros Hne. destruct (ring h); [done|]. cbn in *. lia.
Qed.

Lemma find_total_witness :
  ∃ i : Z,
    find (state_of demo_weighted) 200 = Ret i ∧
    (∀ fuel, (Z.to_nat (size (state_of demo_weighted)) < fuel)%nat →
             find_loop fuel (state_of demo_weighted) 200 0
                       (size (state_of demo_weighted)) = Ret i) ∧
    (ring (state_of demo_weighted) = [] → i = 0) ∧
    (ring (state_of demo_weighted) ≠ [] →
     0 ≤ i < Z.of_nat (length (ring (state_of demo_weighted)))).
Proof.
  apply (find_total (state_of demo_weighted) 200).
  split; vm_compute; reflexivity.
Defined.

(** ** Sorting the ring *)

Lemma insert_node_length n l : length (insert_node n l) = S (length l).
Proof.
  induction l as [|m l IH]; cbn; [done|].
  destruct (value n <=? value m); cbn; [done|]. by rewrite IH.
Qed.

Lemma sort_ring_cons n l : sort_ring (n :: l) = insert_node n (sort_ring l).
Proof. reflexivity. Qed.

Lemma sort_ring_length l : length (sort_ring l) = length l.
Proof.
  induction l as [|n l IH]; [done|].
  rewrite sort_ring_cons, insert_node_length, IH. done.
Qed.

Lemma insert_node_elem n l m : m ∈ insert_node n l ↔ m = n ∨ m ∈ l.
Proof.
  induction l as [|k l IH]; cbn [insert_node].
  - rewrite list_elem_of_singleton, elem_of_nil. tauto.
  - destruct (value n <=? value k).
    + rewrite elem_of_cons. tauto.
    + rewrite !elem_of_cons, IH. tauto.
Qed.

Lemma sort_ring_elem l m : m ∈ sort_ring l ↔ m ∈ l.
Proof.
  induction l as [|n l IH]; [done|].
  rewrite sort_ring_cons, insert_node_elem, elem_of_cons, IH. tauto.
Qed.

Lemma insert_node_sorted n l : ring_sorted l → ring_sorted (insert_node n l).
Proof.
  unfold ring_sorted. intros Hs.
  induction Hs as [|m l Hs IH Hall]; cbn [insert_node].
  - repeat constructor.
  - destruct (Z.leb_spec (value n) (value m)) as [Hle|Hgt].
    + constructor; [by constructor|].
      constructor; [done|].
      eapply Forall_impl; [exact Hall|].
      unfold node_le. intros; cbn in *; lia.
    + constructor; [done|].
      apply Forall_forall. intros k Hk.
      apply insert_node_elem in Hk as [->|Hk].
      * unfold node_le. lia.
      * rewrite Forall_forall in Hall. by apply Hall.
Qed.

Lemma sort_ring_sorted l : ring_sorted (sort_ring l).
Proof.
  induction l as [|n l IH].
  - constructor.
  - rewrite sort_ring_cons. by apply insert_node_sorted.
Qed.

(** A node at or below every node of [l] is inserted at its head. *)
Lemma insert_node_head n l :
  Forall (node_le n) l → insert_node n l = n :: l.
Proof.
  destruct l as [|m l]; [done|].
  intros Hall. apply Forall_cons in Hall as [Hle _]. cbn.
  unfold node_le in Hle. by destruct (Z.leb_spec (value n) (value m)); [|lia].
Qed.

(** Dropping nodes commutes with sorting: ties keep their order. *)
Lemma filter_insert_node (P : Node → Prop) `{!∀ x, Decision (P x)} n l :
  ring_sorted l →
  filter P (insert_node n l) =
    if decide (P n) then insert_node n (filter P l) else filter P l.
Proof.
  unfold ring_sorted. intros Hs.
  induction Hs as [|m l Hs IH Hall]; cbn [insert_node].
  - rewrite filter_cons, !filter_nil. by destruct (decide (P n)).
  - destruct (Z.leb_spec (value n) (value m)) as [Hle|Hgt].
    + rewrite (filter_cons P n). destruct (decide (P n)) as [Hn|Hn]; [|done].
      rewrite insert_node_head; [done|].
      apply Forall_forall. intros k Hk.
      apply list_elem_of_filter in Hk as [_ Hk].
      apply elem_of_cons in Hk as [->|Hk]; [unfold node_le; lia|].
      rewrite Forall_forall in Hall. specialize (Hall k Hk).
      unfold node_le in *. lia.
    + rewrite (filter_cons P m), IH, (filter_cons P m).
      destruct (decide (P m)) as [Hm|Hm]; destruct (decide (P n)) as [Hn|Hn];
        try done.
      cbn [insert_node]. by destruct (Z.leb_spec (value n) (value m)); [lia|].
Qed.

Lemma filter_sort_ring (P : Node → Prop) `{!∀ x, Decision (P x)} l :
  filter P (sort_ring l) = sort_ring (filter P l).
Proof.
  induction l as [|n l IH]; [done|].
  rewrite sort_ring_cons, filter_insert_node by apply sort_ring_sorted.
  rewrite filter_cons. destruct (decide (P n)); [|done].
  by rewrite sort_ring_cons, IH.
Qed.

(** Relabelling nodes keeps the order. *)
Lemma ring_sorted_fmap (f : Node → Node) r :
  (∀ n, value (f n) = value n) → ring_sorted r → ring_sorted (f <$> r).
Proof.
  unfold ring_sorted. intros Hf Hs.
  induction Hs as [|m l Hs IH Hall]; cbn; constructor; [done|].
  apply Forall_fmap. eapply Forall_impl; [exact Hall|].
  unfold node_le. intros k Hk. cbn. rewrite !Hf. done.
Qed.

(** ** The continuum *)

Lemma replica_nodes_length h srv i :
  length (replica_nodes h srv i) = replicas h.
Proof. unfold replica_nodes. by rewrite length_fmap, length_seq. Qed.

Lemma replica_nodes_server h srv i n :
  n ∈ replica_nodes h srv i → server n = s_string srv.
Proof.
  unfold replica_nodes. intros Hn.
  apply list_elem_of_fmap in Hn as (j & -> & _). done.
Qed.

Lemma vnode_nodes_length h srv (l : list nat) :
  length (l ≫= replica_nodes h srv) = (length l * replicas h)%nat.
Proof.
  induction l as [|i l IH]; [done|].
  rewrite bind_cons, length_app, replica_nodes_length, IH. cbn. lia.
Qed.

Lemma vnode_nodes_server h srv (l : list nat) n :
  n ∈ l ≫= replica_nodes h srv → server n = s_string srv.
Proof.
  intros Hn. apply list_elem_of_bind in Hn as (i & Hn & _).
  by eapply replica_nodes_server.
Qed.

Lemma server_nodes_Int h srv z :
  points_length h srv = Int z →
  server_nodes h srv = Ret (seq 0 (Z.to_nat z) ≫= replica_nodes h srv).
Proof. intros Hz. unfold server_nodes. by rewrite Hz. Qed.

(** With well-formed weights the placing loop ends, having written
    [length_i * replicas] nodes for each server. *)
Lemma placed_nodes_length h ss :
  Forall (λ srv, ∃ z, points_length h srv = Int z ∧ 0 ≤ z) ss →
  ∃ ns, placed_nodes h ss = Ret ns ∧
        Z.of_nat (length ns) =
          foldr (λ srv acc,
                   length_of (points_length h srv) * Z.of_nat (replicas h) + acc)
                0 ss.
Proof.
  induction 1 as [|srv ss (z & Hz & Hpos) _ (ns & Hns & Hlen)]; cbn.
  - by exists [].
  - rewrite (server_nodes_Int h srv z Hz), Hns. cbn.
    eexists; split; [done|].
    rewrite length_app, vnode_nodes_length, length_seq, Hz. cbn. lia.
Qed.

Lemma continuum_empty h : servers h = [] → continuum h = Ret h.
Proof. intros Hss. unfold continuum. by rewrite bool_decide_eq_true_2. Qed.

Lemma continuum_placed h ns :
  servers h ≠ [] → placed_nodes h (servers h) = Ret ns →
  continuum h =
    Ret (with_ring (sort_ring (write_from_start ns (ring h)))
                   (Z.of_nat (length (sort_ring (write_from_start ns (ring h)))))
                   h).
Proof.
  intros Hss Hns. unfold continuum.
  rewrite bool_decide_eq_false_2 by done. by rewrite Hns.
Qed.

(** What [continuum] returns has the server set, the dictionary, the
    configuration and the cache it was given. *)
Lemma continuum_frame h h' :
  continuum h = Ret h' →
  servers h' = servers h ∧ vnodes h' = vnodes h ∧ vnode h' = vnode h ∧
  hash h' = hash h ∧ replicas h' = replicas h ∧ cache h' = cache h ∧
  pps h' = pps h.
Proof.
  unfold continuum. destruct (bool_decide _).
  - intros [= <-]. done.
  - destruct (placed_nodes h (servers h)); cbn; [|done..].
    intros [= <-]. done.
Qed.

Lemma continuum_sized h h' :
  continuum h = Ret h' → size h = Z.of_nat (length (ring h)) →
  size h' = Z.of_nat (length (ring h')).
Proof.
  unfold continuum. destruct (bool_decide _).
  - by intros [= <-].
  - destruct (placed_nodes h (servers h)); cbn; [|done..].
    by intros [= <-].
Qed.

Lemma continuum_sorted h h' :
  continuum h = Ret h' → ring_sorted (ring h) → ring_sorted (ring h').
Proof.
  unfold continuum. destruct (bool_decide _).
  - by intros [= <-].
  - destruct (placed_nodes h (servers h)); cbn; [|done..].
    intros [= <-] _. apply sort_ring_sorted.
Qed.

Lemma continuum_ring_empty h h' :
  continuum h = Ret h' → ring h = [] → servers h' = [] → ring h' = [].
Proof.
  unfold continuum. destruct (bool_decide_reflect (servers h = [])) as [Hs|Hs].
  - by intros [= <-].
  - destruct (placed_nodes h (servers h)); cbn; [|done..].
    by intros [= <-] _ Hs'.
Qed.

(** The continuum of a well-weighted server set, built on an empty ring:
    it is returned, sorted, and as long as planned. *)
Lemma continuum_planned h :
  well_weighted h → ring h = [] → size h = 0 →
  ∃ h', continuum h = Ret h' ∧ ring_sorted (ring h') ∧
        Z.of_nat (length (ring h')) = planned_length h' ∧
        size h' = Z.of_nat (length (ring h')).
Proof.
  intros Hw Hring Hsize.
  destruct (decide (servers h = [])) as [Hss|Hss].
  - exists h. split; [by apply continuum_empty|].
    rewrite Hring. unfold planned_length. rewrite Hss. cbn.
    split; [constructor|]. done.
  - destruct (placed_nodes_length h (servers h) Hw) as (ns & Hns & Hlen).
    eexists. split; [by apply continuum_placed|]. cbn.
    split; [apply sort_ring_sorted|]. split; [|done].
    rewrite sort_ring_length. unfold write_from_start.
    rewrite Hring, drop_nil, app_nil_r. exact Hlen.
Qed.

(** ** The cache *)

Lemma assoc_without k key es :
  assoc k (cache_without key es) =
    if decide (k = key) then None else assoc k es.
Proof.
  unfold cache_without. induction es as [|e es IH].
  - rewrite filter_nil. cbn. by destruct (decide (k = key)).
  - rewrite filter_cons. destruct (decide (e.1 ≠ key)) as [Hne|Heq]; cbn [assoc].
    + destruct (decide (e.1 = k)) as [<-|Hk].
      * by destruct (decide (e.1 = key)).
      * exact IH.
    + rewrite IH. destruct (decide (k = key)) as [->|Hk]; [done|].
      destruct (decide (e.1 = k)) as [<-|]; [|done].
      destruct Heq. done.
Qed.

Lemma assoc_take k v n es :
  assoc k (take n es) = Some v → assoc k es = Some v.
Proof.
  revert n. induction es as [|e es IH]; intros [|n]; cbn; try done.
  destruct (decide (e.1 = k)); [done|]. apply IH.
Qed.

Lemma assoc_None k es : assoc k es = None ↔ k ∉ es.*1.
Proof.
  induction es as [|e es IH]; cbn.
  - split; [intros _; apply not_elem_of_nil|done].
  - rewrite not_elem_of_cons. destruct (decide (e.1 = k)) as [->|Hne].
    + split; [done|]. by intros [? _].
    + rewrite IH. split; [|tauto]. intros ?; split; [congruence|done].
Qed.

Lemma assoc_NoDup k v es :
  NoDup es.*1 → (k, v) ∈ es → assoc k es = Some v.
Proof.
  induction es as [|e es IH]; [by intros _ ?%elem_of_nil|].
  rewrite fmap_cons. intros [Hnotin Hnd]%NoDup_cons [Heq|Hin]%elem_of_cons.
  - subst e. cbn. by destruct (decide (k = k)).
  - cbn [assoc]. destruct (decide (e.1 = k)) as [Heq|Hne]; [|by apply IH].
    destruct Hnotin. rewrite Heq.
    apply list_elem_of_fmap. by exists (k, v).
Qed.

Lemma assoc_elem k v es : assoc k es = Some v → (k, v) ∈ es.
Proof.
  induction es as [|[k' v'] es IH]; cbn; [done|].
  destruct (decide (k' = k)) as [->|Hne].
  - intros [= ->]. apply elem_of_cons. by left.
  - intros Hk. apply elem_of_cons. right. by apply IH.
Qed.

Lemma cache_without_keys key es : key ∉ (cache_without key es).*1.
Proof.
  apply assoc_None. rewrite assoc_without. by destruct (decide (key = key)).
Qed.

Lemma cache_without_NoDup key es :
  NoDup es.*1 → NoDup (cache_without key es).*1.
Proof.
  unfold cache_without. induction es as [|e es IH]; [done|].
  rewrite fmap_cons. intros [Hnotin Hnd]%NoDup_cons. rewrite filter_cons.
  destruct (decide (e.1 ≠ key)); [|by apply IH].
  rewrite fmap_cons. apply NoDup_cons. split; [|by apply IH].
  intros Hin. apply Hnotin.
  apply list_elem_of_fmap in Hin as (e' & He' & Hin).
  apply list_elem_of_filter in Hin as [_ Hin].
  apply list_elem_of_fmap. by exists e'.
Qed.

Lemma cache_without_length key es :
  key ∈ es.*1 → (length (cache_without key es) < length es)%nat.
Proof.
  unfold cache_without. induction es as [|e es IH].
  - by intros ?%elem_of_nil.
  - rewrite fmap_cons. intros Hin. rewrite filter_cons.
    pose proof (length_filter (λ e : string * string, e.1 ≠ key) es) as Hle.
    destruct (decide (e.1 ≠ key)) as [Hne|_]; cbn [length]; [|lia].
    apply elem_of_cons in Hin as [->|Hin]; [done|].
    specialize (IH Hin). lia.
Qed.

(** A hit returns the cached value and keeps every entry. *)
Lemma cache_get_fst key c : (cache_get key c).1 = cache_lookup key c.
Proof. unfold cache_get. by destruct (cache_lookup key c). Qed.

Lemma cache_get_lookup key c k :
  cache_lookup k (cache_get key c).2 = cache_lookup k c.
Proof.
  unfold cache_get. destruct (cache_lookup key c) as [v|] eqn:Hv; [|done].
  unfold cache_lookup in *. cbn.
  destruct (decide (key = k)) as [<-|Hne]; [done|].
  rewrite assoc_without. by destruct (decide (k = key)); [congruence|].
Qed.

Lemma cache_get_wf key c : cache_wf c → cache_wf (cache_get key c).2.
Proof.
  intros [Hnd Hlen]. unfold cache_get.
  destruct (cache_lookup key c) as [v|] eqn:Hv; [|done].
  split; cbn.
  - apply NoDup_cons. split; [apply cache_without_keys|].
    by apply cache_without_NoDup.
  - assert (key ∈ (entries c).*1) as Hin.
    { destruct (decide (key ∈ (entries c).*1)) as [|Hn]; [done|].
      apply assoc_None in Hn. unfold cache_lookup in Hv. congruence. }
    pose proof (cache_without_length key (entries c) Hin). lia.
Qed.

(** After [set], an entry is the new one or was there before. *)
Lemma cache_set_lookup key val c k v :
  cache_lookup k (cache_set key val c) = Some v →
  (k = key ∧ v = val) ∨ (k ≠ key ∧ cache_lookup k c = Some v).
Proof.
  unfold cache_lookup, cache_set. cbn [entries]. intros Hk.
  apply assoc_take in Hk. cbn in Hk.
  destruct (decide (key = k)) as [<-|Hne]; [left; by simplify_eq|].
  right. rewrite assoc_without in Hk.
  destruct (decide (k = key)); [done|]. done.
Qed.

Lemma cache_set_wf key val c : cache_wf c → cache_wf (cache_set key val c).
Proof.
  intros [Hnd Hlen]. unfold cache_set. split; cbn [entries maxSize].
  - rewrite fmap_take. eapply sublist_NoDup; [|apply sublist_take].
    rewrite fmap_cons. apply NoDup_cons. split; [apply cache_without_keys|].
    by apply cache_without_NoDup.
  - rewrite length_take. lia.
Qed.

(** Overwriting a cached key changes that entry only: nothing is evicted. *)
Lemma cache_set_present key val c k :
  cache_wf c → key ∈ (entries c).*1 →
  cache_lookup k (cache_set key val c) =
    if decide (k = key) then Some val else cache_lookup k c.
Proof.
  intros [Hnd Hlen] Hin. unfold cache_lookup, cache_set. cbn [entries maxSize].
  pose proof (cache_without_length key (entries c) Hin) as Hlt.
  rewrite take_ge by (cbn; lia). cbn.
  destruct (decide (key = k)) as [<-|Hne].
  - by destruct (decide (key = key)).
  - rewrite assoc_without. by destruct (decide (k = key)); [congruence|].
Qed.

(** ** Lookup reads the coordinates, the size and the digest only *)

Lemma find_loop_ext fuel h1 h2 hv low high :
  (∀ i, value_at (ring h1) i = value_at (ring h2) i) → size h1 = size h2 →
  find_loop fuel h1 hv low high = find_loop fuel h2 hv low high.
Proof.
  intros Hval Hsize. revert low high.
  induction fuel as [|fuel IH]; intros low high; [done|].
  cbn [find_loop]. rewrite Hsize, !Hval.
  set (mid := Z.shiftr (ToInt32 (low + high)) 1).
  destruct (mid =? size h2); [done|].
  destruct (value_at (ring h2) mid) as [middle| |]; cbn; [|done..].
  destruct (if mid =? 0 then Ret 0 else value_at (ring h2) (mid - 1))
    as [prev| |]; cbn; [|done..].
  destruct ((hv <=? middle) && (prev <? hv)); [done|].
  destruct (_ <? _); [done|]. apply IH.
Qed.

Lemma find_ext h1 h2 hv :
  (∀ i, value_at (ring h1) i = value_at (ring h2) i) → size h1 = size h2 →
  find h1 hv = find h2 hv.
Proof.
  intros Hval Hsize. unfold find. rewrite Hsize. by apply find_loop_ext.
Qed.

Lemma owner_ext h1 h2 key :
  ring h1 = ring h2 → size h1 = size h2 → hash h1 = hash h2 →
  owner h1 key = owner h2 key.
Proof.
  intros Hring Hsize Hhash. unfold owner, hashValue, digest.
  rewrite Hhash, Hring.
  rewrite (find_ext h1 h2); [done| |done]. by rewrite Hring.
Qed.

Lemma owner_with_cache c h key : owner (with_cache c h) key = owner h key.
Proof. by apply owner_ext. Qed.

(** ** [get] and the cache *)

(** With a coherent cache, [get] answers what the ring answers. *)
Lemma get_owner key h :
  cache_coherent h → fst <$> get key h = owner h key.
Proof.
  intros Hco. unfold get.
  pose proof (cache_get_fst key (cache h)) as Hfst.
  destruct (cache_get key (cache h)) as [hit c]. cbn in Hfst. subst hit.
  assert (∀ r : result (option string * HashRing),
            (i ← find (with_cache c h) (hashValue (with_cache c h) key);
             match ring_at (ring (with_cache c h)) i with
             | None => Ret (None, with_cache c h)
             | Some node =>
                 Ret (Some (server node),
                      with_cache (cache_set key (server node)
                                            (cache (with_cache c h)))
                                 (with_cache c h))
             end) = r → fst <$> r = owner h key) as Hmiss.
  { intros r <-. rewrite <- (owner_with_cache c h key). unfold owner.
    destruct (find (with_cache c h) (hashValue (with_cache c h) key))
      as [i| |]; cbn; [|done..].
    by destruct (ring_at (ring h) i). }
  destruct (cache_lookup key (cache h)) as [[|a s]|] eqn:Hhit.
  - by apply Hmiss.
  - cbn. symmetry. by apply Hco.
  - by apply Hmiss.
Qed.

(** The state [get] leaves differs in the cache only, whose entries were
    there before or are the answer just given. *)
Lemma get_state key h r h' :
  get key h = Ret (r, h') →
  ∃ c', h' = with_cache c' h ∧
        (cache_wf (cache h) → cache_wf c') ∧
        ∀ k v, cache_lookup k c' = Some v →
               cache_lookup k (cache h) = Some v ∨
               (k = key ∧ owner h key = Ret (Some v)).
Proof.
  unfold get.
  pose proof (cache_get_lookup key (cache h)) as Hlook.
  pose proof (cache_get_wf key (cache h)) as Hwf.
  destruct (cache_get key (cache h)) as [hit c]. cbn in Hlook, Hwf.
  assert ((i ← find (with_cache c h) (hashValue (with_cache c h) key);
           match ring_at (ring (with_cache c h)) i with
           | None => Ret (None, with_cache c h)
           | Some node =>
               Ret (Some (server node),
                    with_cache (cache_set key (server node)
                                          (cache (with_cache c h)))
                               (with_cache c h))
           end) = Ret (r, h') →
          ∃ c', h' = with_cache c' h ∧
                (cache_wf (cache h) → cache_wf c') ∧
                ∀ k v, cache_lookup k c' = Some v →
                       cache_lookup k (cache h) = Some v ∨
                       (k = key ∧ owner h key = Ret (Some v))) as Hmiss.
  { rewrite <- (owner_with_cache c h key). unfold owner.
    destruct (find (with_cache c h) (hashValue (with_cache c h) key))
      as [i| |]; cbn; [|done..].
    destruct (ring_at (ring h) i) as [node|]; intros [= <- <-].
    - exists (cache_set key (server node) c). split; [done|]. split.
      + intros Hc. by apply cache_set_wf, Hwf.
      + intros k v Hk.
        apply cache_set_lookup in Hk as [[-> ->]|[_ Hk]]; [by right|].
        left. by rewrite <- Hlook.
    - exists c. split; [done|]. split; [done|].
      intros k v Hk. left. by rewrite <- Hlook. }
  destruct hit as [[|a s]|]; [done| |done].
  intros [= <- <-]. exists c. split; [done|]. split; [done|].
  intros k v Hk. left. by rewrite <- Hlook.
Qed.

(** ** [swap] *)

Lemma swap_ring_values from to connection h :
  value <$> ring (swap from to connection h) = value <$> ring h.
Proof.
  cbn. rewrite <- list_fmap_compose. apply list_fmap_ext.
  intros i n _. cbn. by destruct (decide (server n = from)).
Qed.

Lemma swap_ring_servers from to connection h :
  server <$> ring (swap from to connection h) =
  relabel from to <$> (server <$> ring h).
Proof.
  cbn. rewrite <- !list_fmap_compose. apply list_fmap_ext.
  intros i n _. cbn. unfold relabel. by destruct (decide (server n = from)).
Qed.

Lemma swap_ring_at from to connection h i :
  ring_at (ring (swap from to connection h)) i =
  (λ node, {| value := value node; server := relabel from to (server node) |})
    <$> ring_at (ring h) i.
Proof.
  unfold ring_at. destruct (i <? 0); [done|]. cbn.
  rewrite list_lookup_fmap. destruct (ring h !! Z.to_nat i) as [n|]; [|done].
  cbn. unfold relabel. destruct (decide (server n = from)); [done|].
  by destruct n.
Qed.

Lemma swap_find from to connection h hv :
  find (swap from to connection h) hv = find h hv.
Proof.
  apply find_ext; [|done].
  intros i. unfold value_at. rewrite swap_ring_at.
  by destruct (ring_at (ring h) i).
Qed.

(** After a swap the ring answers with the relabelled server. *)
Lemma swap_owner from to connection h key :
  owner (swap from to connection h) key =
  (λ r : option string, relabel from to <$> r) <$> owner h key.
Proof.
  unfold owner. change (hashValue (swap from to connection h) key)
    with (hashValue h key).
  rewrite swap_find. destruct (find h (hashValue h key)) as [i| |]; [|done..].
  cbn -[swap]. rewrite swap_ring_at.
  by destruct (ring_at (ring h) i).
Qed.

(** The rewriting pass over the cache, entry by entry. *)
Lemma swap_cache_pass from to (l : list (string * string)) acc :
  cache_wf acc → NoDup l.*1 →
  (∀ k v, (k, v) ∈ l → cache_lookup k acc = Some v) →
  let acc' := foldl (λ acc e, if decide (e.2 = from)
                              then cache_set e.1 to acc else acc) acc l in
  cache_wf acc' ∧
  ∀ k, cache_lookup k acc' =
       if decide (k ∈ l.*1) then relabel from to <$> cache_lookup k acc
       else cache_lookup k acc.
Proof.
  revert acc. induction l as [|[k0 v0] l IH]; intros acc Hwf Hnd Hin; cbn zeta.
  { split; [done|]. intros k. cbn. destruct (decide (k ∈ [])) as [Hk|]; [|done].
    by apply elem_of_nil in Hk. }
  rewrite fmap_cons in Hnd. apply NoDup_cons in Hnd as [Hk0 Hnd].
  cbn [foldl fst snd].
  assert (cache_lookup k0 acc = Some v0) as Hv0.
  { apply Hin. apply elem_of_cons. by left. }
  assert (k0 ∈ (entries acc).*1) as Hk0in.
  { apply assoc_elem in Hv0. apply list_elem_of_fmap. by exists (k0, v0). }
  set (acc1 := if decide (v0 = from) then cache_set k0 to acc else acc).
  assert (cache_wf acc1) as Hwf1.
  { subst acc1. destruct (decide (v0 = from)); [by apply cache_set_wf|done]. }
  assert (∀ k, cache_lookup k acc1 =
               if decide (k = k0) then Some (relabel from to v0)
               else cache_lookup k acc) as Hacc1.
  { intros k. subst acc1. unfold relabel.
    destruct (decide (v0 = from)) as [->|Hne].
    - by rewrite cache_set_present.
    - destruct (decide (k = k0)) as [->|]; [done|done]. }
  destruct (IH acc1 Hwf1 Hnd) as [Hwf' Hlook].
  { intros k v Hkv. rewrite Hacc1.
    destruct (decide (k = k0)) as [->|Hne].
    - destruct Hk0. apply list_elem_of_fmap. by exists (k0, v).
    - apply Hin. apply elem_of_cons. by right. }
  split; [done|]. intros k. rewrite Hlook, Hacc1, fmap_cons. cbn [fst].
  destruct (decide (k = k0)) as [->|Hne].
  - destruct (decide (k0 ∈ l.*1)); [done|].
    destruct (decide (k0 ∈ k0 :: l.*1)) as [_|Hn]; [by rewrite Hv0|].
    destruct Hn. apply elem_of_cons. by left.
  - destruct (decide (k ∈ l.*1)) as [Hl|Hl];
      destruct (decide (k ∈ k0 :: l.*1)) as [Hc|Hc]; try done.
    + destruct Hc. apply elem_of_cons. by right.
    + apply elem_of_cons in Hc as [?|?]; done.
Qed.

(** [swap] rewrites the cached [from] to [to] and nothing else. *)
Lemma swap_cache from to connection h :
  cache_wf (cache h) →
  cache_wf (cache (swap from to connection h)) ∧
  ∀ k, cache_lookup k (cache (swap from to connection h)) =
       relabel from to <$> cache_lookup k (cache h).
Proof.
  intros Hwf. pose proof Hwf as [Hnd _].
  destruct (swap_cache_pass from to (entries (cache h)) (cache h) Hwf Hnd)
    as [Hwf' Hlook].
  { intros k v Hkv. by apply assoc_NoDup. }
  split; [exact Hwf'|]. intros k.
  change (cache (swap from to connection h)) with
    (foldl (λ acc e, if decide (e.2 = from) then cache_set e.1 to acc else acc)
           (cache h) (entries (cache h))).
  rewrite Hlook. destruct (decide (k ∈ (entries (cache h)).*1)) as [|Hn]; [done|].
  apply assoc_None in Hn. unfold cache_lookup. by rewrite Hn.
Qed.

(** ** The invariant of the reachable states *)

(** A continuum generated on an emptied instance. *)
Lemma rebuild_invariant h0 h :
  ring h0 = [] → size h0 = 0 → entries (cache h0) = [] →
  continuum h0 = Ret h → invariant h.
Proof.
  intros Hring Hsize Hcache Hc.
  destruct (continuum_frame h0 h Hc) as (Hss & _ & _ & _ & _ & Hca & _).
  repeat split.
  - apply (continuum_sized h0 h Hc). by rewrite Hring, Hsize.
  - apply (continuum_sorted h0 h Hc). rewrite Hring. constructor.
  - intros k v. unfold cache_lookup. by rewrite Hca, Hcache.
  - rewrite Hca, Hcache. constructor.
  - rewrite Hca, Hcache. cbn. lia.
  - intros Hs. by apply (continuum_ring_empty h0 h Hc).
Qed.

Lemma get_invariant key h r h' :
  invariant h → get key h = Ret (r, h') → invariant h'.
Proof.
  intros (Hsz & Hso & Hco & Hwf & Hem) Hget.
  destruct (get_state key h r h' Hget) as (c' & -> & Hwf' & Hsub).
  repeat split; try done; try (by apply Hwf').
  intros k v Hk. rewrite owner_with_cache.
  destruct (Hsub k v Hk) as [Hold|[-> Hnew]]; [by apply Hco|done].
Qed.

Lemma swap_invariant from to connection h :
  invariant h → invariant (swap from to connection h).
Proof.
  intros (Hsz & Hso & Hco & Hwf & Hem).
  destruct (swap_cache from to connection h Hwf) as [Hwf' Hlook].
  split; [|split; [|split; [|split]]].
  - cbn. by rewrite length_fmap.
  - apply ring_sorted_fmap; [|done].
    intros n. by destruct (decide (server n = from)).
  - intros k v Hk. rewrite Hlook in Hk. rewrite swap_owner.
    destruct (cache_lookup k (cache h)) as [v0|] eqn:Hv0; [|done].
    cbn in Hk. simplify_eq. by rewrite (Hco k v0 Hv0).
  - exact Hwf'.
  - cbn. intros Hs. apply fmap_nil_inv in Hs. by rewrite (Hem Hs).
Qed.

Lemma reset_invariant h : invariant (reset h).
Proof.
  repeat split; cbn; try done; try constructor. lia.
Qed.

Theorem reachable_invariant h : reachable h → invariant h.
Proof.
  induction 1 as [ss alg opts h Hc
                 |key h r h' _ IH Hget
                 |news h h' _ IH Hadd
                 |s h h' _ IH Hrem
                 |from to conn h _ IH
                 |h _ IH
                 |h _ IH].
  - by apply (rebuild_invariant (initial ss alg opts) h).
  - by apply (get_invariant key h r h').
  - by apply (rebuild_invariant (reset (add_servers news h)) h').
  - by apply (rebuild_invariant (reset (remove_server s h)) h').
  - by apply swap_invariant.
  - apply reset_invariant.
  - repeat split; cbn; try done; try constructor. lia.
Qed.

(** ** The planned length across a swap *)

Lemma total_weight_fmap (f : Server → Server) ss :
  (∀ srv, s_weight (f srv) = s_weight srv) →
  total_weight (f <$> ss) = total_weight ss.
Proof.
  intros Hf. unfold total_weight. generalize 0%float.
  induction ss as [|srv ss IH]; intros acc; cbn; [done|].
  by rewrite Hf, IH.
Qed.

Lemma swap_points_length from to connection h srv :
  to ∉ ids h → srv ∈ servers h →
  points_length (swap from to connection h)
    (if decide (s_string srv = from)
     then {| s_string := to; s_host := s_host connection;
             s_port := s_port connection; s_weight := s_weight srv;
             s_vnodes := s_vnodes srv |}
     else srv) =
  points_length h srv.
Proof.
  intros Hto Hsrv. unfold points_length.
  assert (s_string srv ≠ to) as Hne.
  { intros <-. apply Hto. unfold ids. apply list_elem_of_fmap. by exists srv. }
  cbn [servers vnodes vnode swap with_servers with_cache with_ring].
  rewrite total_weight_fmap, length_fmap;
    [|intros s; by destruct (decide (s_string s = from))].
  destruct (decide (s_string srv = from)) as [Hfrom|Hfrom]; cbn [s_weight s_string].
  - rewrite lookup_delete_ne by congruence.
    rewrite lookup_insert_eq, Hfrom.
    by destruct (vnodes h !! from) as [[|x]|].
  - rewrite lookup_delete_ne by congruence.
    by rewrite lookup_insert_ne by congruence.
Qed.

Lemma foldr_fmap_agree {A : Type} (f g : A → Z → Z) (r : A → A) (l : list A) :
  (∀ x acc, x ∈ l → f (r x) acc = g x acc) →
  foldr f 0 (r <$> l) = foldr g 0 l.
Proof.
  induction l as [|x l IH]; intros Hfg; [done|].
  rewrite fmap_cons. cbn [foldr].
  rewrite Hfg by (apply elem_of_cons; by left).
  rewrite IH; [done|]. intros y acc Hy. apply Hfg. apply elem_of_cons. by right.
Qed.

Lemma swap_planned_length from to connection h :
  to ∉ ids h →
  planned_length (swap from to connection h) = planned_length h.
Proof.
  intros Hto. unfold planned_length.
  change (replicas (swap from to connection h)) with (replicas h).
  pose proof (λ srv, swap_points_length from to connection h srv Hto) as Hpl.
  change (servers (swap from to connection h)) with
    ((λ srv, if decide (s_string srv = from)
             then {| s_string := to; s_host := s_host connection;
                     s_port := s_port connection; s_weight := s_weight srv;
                     s_vnodes := s_vnodes srv |}
             else srv) <$> servers h).
  apply foldr_fmap_agree. intros srv acc Hsrv. by rewrite Hpl.
Qed.

(** C3 (amended): every state an instance goes through has its ring sorted
    ascending by coordinate, with the recorded size equal to its length.
    After construction, [add] and [remove] on well-weighted server sets the
    call returns and the length is the sum over the servers of
    [length_i * replicas], [length_i] being
    [floor(weight / total * vnodes_i * count)] in double arithmetic with
    the override or the base vnode count; after [reset] the ring is empty.
    [swap] keeps the ring sorted and of the same length, and keeps the sum
    equal to it when [to] is not already an id of the server set. *)
Theorem ring_invariant :
  (∀ h, reachable h →
        ring_sorted (ring h) ∧ size h = Z.of_nat (length (ring h))) ∧
  (∀ ss algorithm options,
     well_weighted (initial ss algorithm options) →
     ∃ h, construct ss algorithm options = Ret h ∧
          Z.of_nat (length (ring h)) = planned_length h) ∧
  (∀ news h,
     well_weighted (add_servers news h) →
     ∃ h', add news h = Ret h' ∧
           Z.of_nat (length (ring h')) = planned_length h') ∧
  (∀ s h,
     well_weighted (remove_server s h) →
     ∃ h', remove s h = Ret h' ∧
           Z.of_nat (length (ring h')) = planned_length h') ∧
  (∀ h, ring (reset h) = []) ∧
  (∀ from to connection h,
     length (ring (swap from to connection h)) = length (ring h) ∧
     (to ∉ ids h →
      Z.of_nat (length (ring h)) = planned_length h →
      Z.of_nat (length (ring (swap from to connection h))) =
        planned_length (swap from to connection h))).
Proof.
  split; [|split; [|split; [|split; [|split]]]].
  - intros h Hr. destruct (reachable_invariant h Hr) as (Hsz & Hso & _). done.
  - intros ss alg opts Hw.
    destruct (continuum_planned (initial ss alg opts) Hw)
      as (h & Hc & _ & Hlen & _); [done..|].
    by exists h.
  - intros news h Hw.
    destruct (continuum_planned (reset (add_servers news h)) Hw)
      as (h' & Hc & _ & Hlen & _); [done..|].
    by exists h'.
  - intros s h Hw.
    destruct (continuum_planned (reset (remove_server s h)) Hw)
      as (h' & Hc & _ & Hlen & _); [done..|].
    by exists h'.
  - done.
  - intros from to conn h. split.
    + cbn. by rewrite length_fmap.
    + intros Hto Hlen. rewrite swap_planned_length by done.
      cbn. by rewrite length_fmap.
Qed.

Lemma demo_weighted_well_weighted :
  well_weighted
    (initial [demo_server "A" 1 0; demo_server "B" 1 0; demo_server "S" 2 0]
             demo_hash (demo_options 2)).
Proof.
  unfold well_weighted. cbn [servers initial].
  repeat constructor.
  - exists 1. split; [vm_compute; reflexivity|lia].
  - exists 1. split; [vm_compute; reflexivity|lia].
  - exists 3. split; [vm_compute; reflexivity|lia].
Defined.

Lemma ring_invariant_witness :
  ∃ h,
    construct [demo_server "A" 1 0; demo_server "B" 1 0; demo_server "S" 2 0]
              demo_hash (demo_options 2) = Ret h ∧
    Z.of_nat (length (ring h)) = planned_length h.
Proof.
  apply (proj1 (proj2 ring_invariant)).
  exact demo_weighted_well_weighted.
Defined.

(** C3, as stated, fails after a [swap] onto an id the server set already
    has: A (override 1) and B (override 2) place 4 + 8 = 12 nodes, and the
    invariant holds; [swap("A", "B")] leaves the 12 nodes in place while
    both servers now read the vnode count 1, so the sum is 8. *)
Lemma swap_onto_existing_id_breaks_length :
  demo_overrides = Ret (state_of demo_overrides) ∧
  Z.of_nat (length (ring (state_of demo_overrides))) = 12 ∧
  planned_length (state_of demo_overrides) = 12 ∧
  Z.of_nat (length (ring (swap "A" "B" (demo_server "B" 1 0)
                               (state_of demo_overrides)))) = 12 ∧
  planned_length (swap "A" "B" (demo_server "B" 1 0)
                       (state_of demo_overrides)) = 8.
Proof. vm_compute. repeat split. Qed.

(** ** [get] returns *)

Lemma owner_total h key :
  ring_sized h → ∃ r, owner h key = Ret r.
Proof.
  intros Hsz. unfold owner.
  destruct (find_returns h (hashValue h key) Hsz) as (i & -> & _).
  cbn. eauto.
Qed.

Lemma get_total key h :
  invariant h → size h < 2 ^ 30 →
  ∃ r h', get key h = Ret (r, h') ∧ owner h key = Ret r.
Proof.
  intros Hinv Hbig. pose proof Hinv as (Hsz & _ & Hco & _).
  destruct (owner_total h key) as [r Hr]; [by split|].
  pose proof (get_owner key h Hco) as Hget. rewrite Hr in Hget.
  destruct (get key h) as [[r' h']| |]; cbn in Hget; [|done..].
  simplify_eq. by exists r, h'.
Qed.

Lemma gets_total keys h :
  invariant h → size h < 2 ^ 30 →
  ∃ h', gets keys h = Ret h' ∧ invariant h' ∧
        ∀ key, owner h' key = owner h key.
Proof.
  revert h. induction keys as [|k keys IH]; intros h Hinv Hbig; cbn [gets].
  - by exists h.
  - destruct (get_total k h Hinv Hbig) as (r & h1 & Hget & _).
    rewrite Hget. cbn [mbind result_bind snd].
    pose proof (get_invariant k h r h1 Hinv Hget) as Hinv1.
    destruct (get_state k h r h1 Hget) as (c' & -> & _).
    destruct (IH (with_cache c' h) Hinv1 Hbig) as (h' & Hgets & Hinv' & Hown).
    exists h'. split; [done|]. split; [done|].
    intros key. by rewrite Hown, owner_with_cache.
Qed.

(** C6: for a fixed server set, digest provider and options, every key has
    one answer: two instances constructed from the same inputs, each after
    any sequence of earlier [get] calls (so with any cache contents, the key
    cached or not), both return it. *)
Theorem get_deterministic (ss : list Server) (algorithm : string → hashed)
    (options : Options) (h1 h2 : HashRing) (key : string) :
  construct ss algorithm options = Ret h1 →
  construct ss algorithm options = Ret h2 →
  size h1 < 2 ^ 30 →
  ∃ r : option string,
    ∀ keys1 keys2 : list string,
      ∃ h1' h2',
        gets keys1 h1 = Ret h1' ∧ gets keys2 h2 = Ret h2' ∧
        fst <$> get key h1' = Ret r ∧ fst <$> get key h2' = Ret r.
Proof.
  intros Hc1 Hc2 Hbig. rewrite Hc1 in Hc2. injection Hc2 as <-.
  pose proof (reachable_invariant h1 (reach_construct _ _ _ _ Hc1)) as Hinv.
  pose proof Hinv as (Hsz & _).
  destruct (owner_total h1 key) as [r Hr]; [by split|].
  exists r. intros keys1 keys2.
  destruct (gets_total keys1 h1 Hinv Hbig) as (h1' & Hg1 & Hinv1 & Hown1).
  destruct (gets_total keys2 h1 Hinv Hbig) as (h2' & Hg2 & Hinv2 & Hown2).
  exists h1', h2'. repeat split; [done|done|..].
  - destruct Hinv1 as (_ & _ & Hco & _). by rewrite get_owner, Hown1.
  - destruct Hinv2 as (_ & _ & Hco & _). by rewrite get_owner, Hown2.
Qed.

Lemma get_deterministic_witness :
  ∃ r : option string,
    ∀ keys1 keys2 : list string,
      ∃ h1' h2',
        gets keys1 (state_of demo_weighted) = Ret h1' ∧
        gets keys2 (state_of demo_weighted) = Ret h2' ∧
        fst <$> get "k" h1' = Ret r ∧ fst <$> get "k" h2' = Ret r.
Proof.
  apply (get_deterministic
           [demo_server "A" 1 0; demo_server "B" 1 0; demo_server "S" 2 0]
           demo_hash (demo_options 2)).
  - vm_compute. reflexivity.
  - vm_compute. reflexivity.
  - vm_compute. reflexivity.
Defined.

(** ** [swap] relabels *)

Lemma demo_pair_reachable : reachable (state_of demo_pair).
Proof.
  apply (reach_construct [demo_server "A" 1 0; demo_server "B" 1 0]
                         demo_hash (demo_options 1)).
  vm_compute. reflexivity.
Defined.

(** C4: in every state an instance goes through, after [swap(from, to)]
    each key's answer is the relabelled former answer ([to] where it was
    [from], the same otherwise); the ring keeps its length and every node
    its coordinate and position; and each cache entry holds the relabelled
    former value, so only the entries valued [from] are rewritten. *)
Theorem swap_relabels (h : HashRing) (from to : string) (connection : Server) :
  reachable h →
  (∀ key, fst <$> get key (swap from to connection h) =
          (λ r : option string, relabel from to <$> r) <$> (fst <$> get key h)) ∧
  length (ring (swap from to connection h)) = length (ring h) ∧
  value <$> ring (swap from to connection h) = value <$> ring h ∧
  (∀ k, cache_lookup k (cache (swap from to connection h)) =
        relabel from to <$> cache_lookup k (cache h)) ∧
  relabel from to from = to ∧
  (∀ s, s ≠ from → relabel from to s = s).
Proof.
  intros Hr. pose proof (reachable_invariant h Hr) as Hinv.
  pose proof (swap_invariant from to connection h Hinv) as Hinv'.
  destruct Hinv as (_ & _ & Hco & Hwf & _).
  destruct Hinv' as (_ & _ & Hco' & _ & _).
  split; [|split; [|split; [|split; [|split]]]].
  - intros key. by rewrite (get_owner key _ Hco'), (get_owner key h Hco),
      swap_owner.
  - cbn. by rewrite length_fmap.
  - apply swap_ring_values.
  - apply (swap_cache from to connection h Hwf).
  - unfold relabel. by destruct (decide (from = from)).
  - intros s Hs. unfold relabel. by destruct (decide (s = from)).
Qed.

Lemma swap_relabels_witness :
  (∀ key, fst <$> get key (swap "A" "D" (demo_server "D" 1 0)
                                (state_of demo_pair)) =
          (λ r : option string, relabel "A" "D" <$> r)
            <$> (fst <$> get key (state_of demo_pair))) ∧
  length (ring (swap "A" "D" (demo_server "D" 1 0) (state_of demo_pair))) =
    length (ring (state_of demo_pair)) ∧
  value <$> ring (swap "A" "D" (demo_server "D" 1 0) (state_of demo_pair)) =
    value <$> ring (state_of demo_pair) ∧
  (∀ k, cache_lookup k (cache (swap "A" "D" (demo_server "D" 1 0)
                                    (state_of demo_pair))) =
        relabel "A" "D" <$> cache_lookup k (cache (state_of demo_pair))) ∧
  relabel "A" "D" "A" = "D" ∧
  (∀ s, s ≠ "A" → relabel "A" "D" s = s).
Proof.
  apply (swap_relabels (state_of demo_pair) "A" "D" (demo_server "D" 1 0)).
  exact demo_pair_reachable.
Defined.

(** ** The empty server set *)

Lemma owner_empty_ring h key v : ring h = [] → owner h key ≠ Ret (Some v).
Proof.
  intros Hring. unfold owner.
  destruct (find h (hashValue h key)) as [i| |]; cbn; [|done..].
  unfold ring_at. rewrite Hring. by destruct (i <? 0).
Qed.

Lemma empty_ring_cache h : invariant h → ring h = [] → entries (cache h) = [].
Proof.
  intros (_ & _ & Hco & _) Hring.
  destruct (entries (cache h)) as [|[k v] es] eqn:Hes; [done|].
  destruct (owner_empty_ring h k v Hring). apply Hco.
  unfold cache_lookup. rewrite Hes. cbn. by destruct (decide (k = k)).
Qed.

Lemma with_cache_same h : with_cache (cache h) h = h.
Proof. by destruct h. Qed.

(** C7: with an empty server set, [continuum] returns at once and leaves
    the ring as it is, so a construction from no servers has an empty ring;
    and in every state an instance goes through with no servers the ring is
    empty and [get] returns [undefined] for every key, without an
    exception and without changing the instance. *)
Theorem empty_server_set_absent :
  (∀ h, servers h = [] → continuum h = Ret h) ∧
  (∀ algorithm options,
     ∃ h, construct [] algorithm options = Ret h ∧
          servers h = [] ∧ ring h = []) ∧
  (∀ h key, reachable h → servers h = [] →
            ring h = [] ∧ get key h = Ret (None, h)).
Proof.
  split; [|split].
  - intros h. apply continuum_empty.
  - intros alg opts. eexists. split; [by apply continuum_empty|]. done.
  - intros h key Hr Hss.
    pose proof (reachable_invariant h Hr) as Hinv.
    pose proof Hinv as (Hsz & _ & _ & _ & Hem).
    specialize (Hem Hss). split; [done|].
    pose proof (empty_ring_cache h Hinv Hem) as Hes.
    rewrite Hem in Hsz. cbn in Hsz.
    unfold get, cache_get, cache_lookup. rewrite Hes. cbn [assoc].
    rewrite with_cache_same.
    unfold find. rewrite Hsz. cbn [Z.to_nat find_loop].
    rewrite Hsz. change (Z.shiftr (ToInt32 (0 + 0)) 1 =? 0) with true.
    cbn. unfold ring_at. by rewrite Hem.
Qed.

Lemma empty_server_set_absent_witness :
  ring (state_of (construct [] demo_hash no_options)) = [] ∧
  get "k" (state_of (construct [] demo_hash no_options)) =
    Ret (None, state_of (construct [] demo_hash no_options)).
Proof.
  apply (proj2 (proj2 empty_server_set_absent)).
  - apply (reach_construct [] demo_hash no_options). reflexivity.
  - reflexivity.
Defined.

(** ** [range] *)

Lemma distinct_after_cons acc x l :
  distinct_after acc (x :: l) =
  distinct_after (if bool_decide (x ∈ acc) then acc else acc ++ [x]) l.
Proof. reflexivity. Qed.

Lemma distinct_after_app acc l1 l2 :
  distinct_after acc (l1 ++ l2) = distinct_after (distinct_after acc l1) l2.
Proof. unfold distinct_after. apply foldl_app. Qed.

Lemma distinct_after_prefix acc l : ∃ suffix, distinct_after acc l = acc ++ suffix.
Proof.
  revert acc. induction l as [|x l IH]; intros acc.
  - exists []. by rewrite app_nil_r.
  - rewrite distinct_after_cons. destruct (bool_decide (x ∈ acc)).
    + apply IH.
    + destruct (IH (acc ++ [x])) as [suffix ->].
      exists (x :: suffix). by rewrite <- app_assoc.
Qed.

Lemma distinct_after_NoDup acc l : NoDup acc → NoDup (distinct_after acc l).
Proof.
  revert acc. induction l as [|x l IH]; intros acc Hnd; [done|].
  rewrite distinct_after_cons.
  destruct (bool_decide_reflect (x ∈ acc)) as [Hin|Hin]; apply IH; [done|].
  apply NoDup_app. split; [done|]. split; [|apply NoDup_singleton].
  intros y Hy ->%list_elem_of_singleton. done.
Qed.

Lemma distinct_after_elem acc l y :
  y ∈ distinct_after acc l ↔ y ∈ acc ∨ y ∈ l.
Proof.
  revert acc. induction l as [|x l IH]; intros acc.
  - cbn. rewrite elem_of_nil. tauto.
  - rewrite distinct_after_cons, IH, elem_of_cons.
    destruct (bool_decide_reflect (x ∈ acc)) as [Hin|Hin].
    + split; [tauto|]. intros [?|[->|?]]; tauto.
    + rewrite elem_of_app, list_elem_of_singleton. tauto.
Qed.

(** The number of distinct ids of a list. *)
Lemma distinct_after_length l :
  length (distinct_after [] l) = length (remove_dups l).
Proof.
  apply Permutation_length, NoDup_Permutation.
  - apply distinct_after_NoDup, NoDup_nil_2.
  - apply NoDup_remove_dups.
  - intros y. rewrite distinct_after_elem, elem_of_remove_dups, elem_of_nil.
    tauto.
Qed.

Lemma remove_dups_length_perm (l1 l2 : list string) :
  l1 ≡ₚ l2 → length (remove_dups l1) = length (remove_dups l2).
Proof.
  intros Hp. apply Permutation_length, NoDup_Permutation.
  - apply NoDup_remove_dups.
  - apply NoDup_remove_dups.
  - intros y. rewrite !elem_of_remove_dups. by rewrite Hp.
Qed.

(** One collecting loop with [unique] set, over indices that hold the
    nodes [ns]: it returns from inside as soon as [sz] ids are collected. *)
Lemma collect_unique r sz idx ns acc :
  Forall2 (λ i n, r !! i = Some n) idx ns → (length acc < sz)%nat →
  collect r sz true idx acc =
    Ret (if decide (sz ≤ length (distinct_after acc (server <$> ns)))%nat
         then inl (take sz (distinct_after acc (server <$> ns)))
         else inr (distinct_after acc (server <$> ns))).
Proof.
  intros Hall. revert acc.
  induction Hall as [|i n idx ns Hi _ IH]; intros acc Hlen.
  - cbn. destruct (decide (sz ≤ length acc)%nat); [lia|done].
  - cbn [collect]. rewrite Hi, fmap_cons, distinct_after_cons.
    cbn [andb].
    set (acc' := if bool_decide (server n ∈ acc) then acc
                 else acc ++ [server n]).
    assert (length acc' ≤ S (length acc))%nat as Hacc'.
    { subst acc'. destruct (bool_decide _); [lia|].
      rewrite length_app. cbn. lia. }
    destruct (bool_decide_reflect (length acc' = sz)) as [Heq|Hne].
    + destruct (distinct_after_prefix acc' (server <$> ns)) as [suffix ->].
      rewrite length_app.
      destruct (decide (sz ≤ length acc' + length suffix)%nat); [|lia].
      by rewrite take_app_length'.
    + apply IH. lia.
Qed.

Lemma seq_lookup_nodes (r : list Node) p n :
  (p + n ≤ length r)%nat →
  Forall2 (λ i m, r !! i = Some m) (seq p n) (take n (drop p r)).
Proof.
  revert p r. induction n as [|n IH]; intros p r Hlen; cbn.
  - rewrite take_0. constructor.
  - destruct (lookup_lt_is_Some_2 r p) as [m Hm]; [lia|].
    rewrite (drop_S r m p Hm). cbn. constructor; [done|].
    apply IH. lia.
Qed.

(** C9: on a non-empty ring, [range(key, n, true)] for a positive [n]
    returns the first [n] distinct server ids met on the ring walked from
    [find(hashValue(key))] to its end and then from its start: they are
    distinct, and there are [min(n, number of distinct ids on the ring)]
    of them. An omitted size is the number of servers in the server set, an
    omitted [unique] is [true], and on an empty ring the result is empty. *)
Theorem range_unique (h : HashRing) (key : string) (n : nat) :
  ring_sized h → ring h ≠ [] → (0 < n)%nat →
  (∃ p res,
     find h (hashValue h key) = Ret (Z.of_nat p) ∧
     range key (Some n) (Some true) h = Ret res ∧
     res = take n (distinct_after [] (ring_walk (ring h) p)) ∧
     NoDup res ∧
     length res = (n `min` length (remove_dups (server <$> ring h)))%nat) ∧
  (∀ unique, range key None unique h =
             range key (Some (length (servers h))) unique h) ∧
  (∀ sz, range key sz None h = range key sz (Some true) h) ∧
  (∀ h0 sz unique, size h0 = 0 → range key sz unique h0 = Ret []).
Proof.
  intros Hsz Hne Hn. split; [|split; [|split]].
  - destruct (find_in_ring h (hashValue h key) Hsz Hne) as (i & Hi & Hrange).
    destruct Hsz as [Hsize Hbig].
    exists (Z.to_nat i).
    exists (take n (distinct_after [] (ring_walk (ring h) (Z.to_nat i)))).
    split; [by rewrite Z2Nat.id by lia|].
    assert (range key (Some n) (Some true) h =
            Ret (take n (distinct_after [] (ring_walk (ring h) (Z.to_nat i)))))
      as Hres.
    { unfold range. destruct (Z.eqb_spec (size h) 0) as [Hz|_].
      { destruct (ring h); [done|]. cbn in *. lia. }
      rewrite Hi. cbn [mbind result_bind default from_option].
      change (id true) with true.
      destruct n as [|n]; [lia|].
      set (p := Z.to_nat i). set (len := length (ring h)).
      rewrite (collect_unique (ring h) (S n) (seq p (len - p))
                 (take (len - p) (drop p (ring h))) []);
        [|apply seq_lookup_nodes; lia|cbn; lia].
      rewrite take_ge by (rewrite length_drop; lia).
      unfold ring_walk. rewrite fmap_app, distinct_after_app.
      set (first := distinct_after [] (server <$> drop p (ring h))).
      destruct (decide (S n ≤ length first)%nat) as [Hfull|Hshort].
      - cbn [mbind result_bind].
        destruct (distinct_after_prefix first (server <$> take p (ring h)))
          as [suffix ->].
        by rewrite take_app_le by lia.
      - cbn [mbind result_bind].
        rewrite (collect_unique (ring h) (S n) (seq 0 p) (take p (ring h)) first);
          [|apply (seq_lookup_nodes (ring h) 0 p); lia|lia].
        destruct (decide (S n ≤ length (distinct_after first
                            (server <$> take p (ring h))))%nat) as [|Hshort'];
          cbn [mbind result_bind]; [done|].
        rewrite (take_ge (distinct_after _ _)); [done|].
        apply Nat.lt_le_incl, Nat.nle_gt, Hshort'. }
    split; [done|]. split; [done|]. split.
    + eapply sublist_NoDup; [|apply sublist_take].
      apply distinct_after_NoDup, NoDup_nil_2.
    + rewrite length_take, distinct_after_length. f_equal.
      apply remove_dups_length_perm. unfold ring_walk.
      rewrite <- (take_drop (Z.to_nat i) (ring h)) at 3.
      rewrite !fmap_app. apply Permutation_app_comm.
  - intros unique. unfold range. by destruct (length (servers h)).
  - done.
  - intros h0 sz unique Hz. unfold range. by rewrite Hz.
Qed.

Lemma range_unique_witness :
  (∃ p res,
     find (state_of demo_weighted) (hashValue (state_of demo_weighted) "m") =
       Ret (Z.of_nat p) ∧
     range "m" (Some 2%nat) (Some true) (state_of demo_weighted) = Ret res ∧
     res = take 2 (distinct_after [] (ring_walk (ring (state_of demo_weighted)) p)) ∧
     NoDup res ∧
     length res =
       (2 `min` length (remove_dups (server <$> ring (state_of demo_weighted))))%nat) ∧
  (∀ unique, range "m" None unique (state_of demo_weighted) =
             range "m" (Some (length (servers (state_of demo_weighted)))) unique
                   (state_of demo_weighted)) ∧
  (∀ sz, range "m" sz None (state_of demo_weighted) =
         range "m" sz (Some true) (state_of demo_weighted)) ∧
  (∀ h0 sz unique, size h0 = 0 → range "m" sz unique h0 = Ret []).
Proof.
  apply (range_unique (state_of demo_weighted) "m" 2).
  - split; vm_compute; reflexivity.
  - vm_compute. discriminate.
  - lia.
Defined.

(** ** Removing a server *)

Lemma filter_all {A : Type} (P : A → Prop) `{!∀ x, Decision (P x)} (l : list A) :
  (∀ x, x ∈ l → P x) → filter P l = l.
Proof.
  induction l as [|x l IH]; intros Hall; [done|].
  rewrite filter_cons.
  destruct (decide (P x)) as [_|Hn].
  - rewrite IH; [done|]. intros y Hy. apply Hall, elem_of_cons. by right.
  - destruct Hn. apply Hall, elem_of_cons. by left.
Qed.

Lemma filter_none {A : Type} (P : A → Prop) `{!∀ x, Decision (P x)} (l : list A) :
  (∀ x, x ∈ l → ¬ P x) → filter P l = [].
Proof.
  induction l as [|x l IH]; intros Hall; [done|].
  rewrite filter_cons.
  destruct (decide (P x)) as [Hp|_].
  - destruct (Hall x); [apply elem_of_cons; by left|done].
  - apply IH. intros y Hy. apply Hall, elem_of_cons. by right.
Qed.

Lemma server_nodes_server h srv ns n :
  server_nodes h srv = Ret ns → n ∈ ns → server n = s_string srv.
Proof.
  unfold server_nodes.
  destruct (for_turns (points_length h srv)) as [k| |]; cbn; [|done..].
  intros [= <-]. apply vnode_nodes_server.
Qed.

(** The nodes placed for the servers other than [s], when their nodes are
    generated alike in both instances. *)
Lemma placed_nodes_filter hA hB s ss ns :
  placed_nodes hA ss = Ret ns →
  (∀ srv, srv ∈ ss → s_string srv ≠ s →
          server_nodes hB srv = server_nodes hA srv) →
  placed_nodes hB (filter (λ srv, s_string srv ≠ s) ss) =
    Ret (filter (λ n, server n ≠ s) ns).
Proof.
  revert ns. induction ss as [|srv ss IH]; intros ns Hns Hsame.
  - injection Hns as <-. done.
  - cbn [placed_nodes] in Hns.
    destruct (server_nodes hA srv) as [ns1| |] eqn:Hns1; [|done..].
    destruct (placed_nodes hA ss) as [rest| |] eqn:Hrest; [|done..].
    injection Hns as <-. rewrite filter_app, filter_cons.
    assert (placed_nodes hB (filter (λ srv, s_string srv ≠ s) ss) =
            Ret (filter (λ n, server n ≠ s) rest)) as Hrec.
    { apply IH; [done|]. intros x Hx. apply Hsame, elem_of_cons. by right. }
    destruct (decide (s_string srv ≠ s)) as [Hne|Heq].
    + cbn [placed_nodes].
      rewrite Hsame, Hns1, Hrec; [|apply elem_of_cons; by left|done].
      rewrite (filter_all _ ns1); [done|].
      intros n Hn. by rewrite (server_nodes_server hA srv ns1 n).
    + rewrite Hrec, (filter_none _ ns1); [done|].
      intros n Hn. rewrite (server_nodes_server hA srv ns1 n) by done.
      intros Hc. apply Heq. done.
Qed.

Lemma write_from_start_nil ns : write_from_start ns [] = ns.
Proof. unfold write_from_start. by rewrite drop_nil, app_nil_r. Qed.

(** The ring of a built instance, in terms of the nodes placed. *)
Lemma built_ring h :
  built h →
  ∃ ns, placed_nodes (reset h) (servers h) = Ret ns ∧ ring h = sort_ring ns.
Proof.
  intros (hb & Hc & Hring). unfold continuum in Hc.
  destruct (bool_decide_reflect (servers (reset h) = [])) as [Hs|Hs].
  - injection Hc as <-. cbn in Hs. rewrite Hs. exists []. by rewrite <- Hring.
  - destruct (placed_nodes (reset h) (servers (reset h))) as [ns| |] eqn:Hns;
      [|done..].
    injection Hc as <-. exists ns. split; [done|].
    rewrite <- Hring. cbn. by rewrite write_from_start_nil.
Qed.

Lemma continuum_reset_ring h ns :
  placed_nodes (reset h) (servers h) = Ret ns →
  ∃ h', continuum (reset h) = Ret h' ∧ ring h' = sort_ring ns ∧
        size h' = Z.of_nat (length (ring h')).
Proof.
  intros Hns. unfold continuum.
  destruct (bool_decide_reflect (servers (reset h) = [])) as [Hs|Hs].
  - cbn in Hs. rewrite Hs in Hns. injection Hns as <-.
    eexists. split; [done|]. done.
  - change (servers (reset h)) with (servers h). rewrite Hns. cbn.
    eexists. split; [done|]. cbn. by rewrite write_from_start_nil.
Qed.

(** *** The owner of a coordinate, and dropping other servers' nodes *)

Lemma owner_successor h key :
  ring_sized h → ring_sorted (ring h) →
  owner h key = Ret (server <$> successor (ring h) (hashValue h key)).
Proof.
  intros Hsz Hsorted. unfold owner.
  rewrite (find_lower_bound h _ Hsz Hsorted). cbn [mbind result_bind mret result_ret].
  destruct Hsz as [Hsize _]. unfold successor.
  pose proof (lower_bound_le (ring h) (hashValue h key)) as Hle.
  set (lb := lower_bound (ring h) (hashValue h key)) in *.
  f_equal. f_equal.
  destruct (Z.eqb_spec (Z.of_nat lb) (size h)) as [Heq|Hne].
  - rewrite (lookup_ge_None_2 (ring h) lb) by lia.
    unfold ring_at. cbn. by rewrite head_lookup.
  - unfold ring_at. destruct (Z.ltb_spec (Z.of_nat lb) 0); [lia|].
    rewrite Nat2Z.id.
    destruct (lookup_lt_is_Some_2 (ring h) lb) as [n Hn]; [lia|].
    by rewrite Hn.
Qed.

Lemma lower_bound_all_below r hv :
  lower_bound r hv = length r → ∀ n, n ∈ r → value n < hv.
Proof.
  intros Hlb n Hn. apply list_elem_of_lookup in Hn as [j Hj].
  apply (lower_bound_below r hv j n Hj).
  apply lookup_lt_Some in Hj. lia.
Qed.

Lemma lower_bound_of_all_below r hv :
  (∀ n, n ∈ r → value n < hv) → lower_bound r hv = length r.
Proof.
  induction r as [|m r IH]; intros Hall; [done|].
  cbn. destruct (Z.ltb_spec (value m) hv) as [_|Hge].
  - rewrite IH; [done|]. intros n Hn. apply Hall, elem_of_cons. by right.
  - specialize (Hall m ltac:(apply elem_of_cons; by left)). lia.
Qed.

Lemma lower_bound_filter (P : Node → Prop) `{!∀ x, Decision (P x)} r hv n :
  r !! lower_bound r hv = Some n → P n →
  filter P r !! lower_bound (filter P r) hv = Some n.
Proof.
  induction r as [|m r IH]; [done|].
  cbn [lower_bound]. rewrite filter_cons.
  destruct (Z.ltb_spec (value m) hv) as [Hlt|Hge].
  - intros Hn Hp. cbn in Hn. specialize (IH Hn Hp).
    destruct (decide (P m)); [|done].
    cbn [lower_bound]. by destruct (Z.ltb_spec (value m) hv); [|lia].
  - intros [= ->] Hp. destruct (decide (P n)); [|done].
    cbn [lower_bound]. by destruct (Z.ltb_spec (value n) hv); [lia|].
Qed.

(** Dropping nodes that are not the owner leaves the owner in place. *)
Lemma successor_filter (P : Node → Prop) `{!∀ x, Decision (P x)} r hv n :
  successor r hv = Some n → P n → successor (filter P r) hv = Some n.
Proof.
  unfold successor. intros Hsucc Hp.
  destruct (r !! lower_bound r hv) as [m|] eqn:Hm.
  - simplify_eq. by rewrite (lower_bound_filter P r hv n Hm Hp).
  - apply lookup_ge_None_1 in Hm.
    pose proof (lower_bound_le r hv) as Hle.
    assert (lower_bound (filter P r) hv = length (filter P r)) as Hlb.
    { apply lower_bound_of_all_below. intros k Hk.
      apply list_elem_of_filter in Hk as [_ Hk].
      apply (lower_bound_all_below r hv); [lia|done]. }
    rewrite (lookup_ge_None_2 (filter P r)) by lia.
    destruct r as [|k r]; [done|]. cbn in Hsucc. simplify_eq.
    rewrite filter_cons. by destruct (decide (P n)).
Qed.

Lemma successor_None r hv : successor r hv = None → r = [].
Proof.
  unfold successor. destruct (r !! lower_bound r hv); [done|].
  by destruct r.
Qed.

(** *** Instances whose ring is the continuum of their server set *)

Lemma placed_nodes_frame hA hB ss :
  servers hA = servers hB → vnodes hA = vnodes hB → vnode hA = vnode hB →
  hash hA = hash hB → replicas hA = replicas hB →
  placed_nodes hA ss = placed_nodes hB ss.
Proof.
  intros Hs Hv Hvn Hh Hr.
  induction ss as [|srv ss IH]; [done|].
  cbn [placed_nodes]. rewrite IH.
  unfold server_nodes, points_length, replica_nodes, digest.
  by rewrite Hs, Hv, Hvn, Hh, Hr.
Qed.

(** A continuum generated on an emptied ring is built. *)
Lemma continuum_built h0 h : ring h0 = [] → continuum h0 = Ret h → built h.
Proof.
  intros Hring Hc. unfold built, continuum in *.
  destruct (bool_decide_reflect (servers h0 = [])) as [Hs|Hs].
  - injection Hc as <-.
    rewrite (bool_decide_eq_true_2 (servers (reset h0) = [])) by done.
    exists (reset h0). by rewrite Hring.
  - destruct (placed_nodes h0 (servers h0)) as [ns| |] eqn:Hns; [|done..].
    injection Hc as <-.
    rewrite (bool_decide_eq_false_2 (servers (reset _) = [])) by done.
    cbn [servers reset with_cache with_ring].
    rewrite (placed_nodes_frame _ h0 (servers h0)) by done.
    rewrite Hns. eexists. split; [done|]. cbn.
    by rewrite Hring, !write_from_start_nil.
Qed.

Lemma construct_built ss algorithm options h :
  construct ss algorithm options = Ret h → built h.
Proof. by apply continuum_built. Qed.

Lemma add_built news h h' : add news h = Ret h' → built h'.
Proof. by apply continuum_built. Qed.

Lemma remove_built s h h' : remove s h = Ret h' → built h'.
Proof. by apply continuum_built. Qed.

(** *** The ring after a removal *)

(** When the servers that stay place as many points as before, the ring
    after [remove] is the ring before without the removed server's nodes. *)
Lemma remove_ring h s :
  built h →
  (∀ srv, srv ∈ servers h → s_string srv ≠ s →
          points_length (remove_server s h) srv = points_length h srv) →
  ∃ h', remove s h = Ret h' ∧
        ring h' = filter (λ n, server n ≠ s) (ring h) ∧
        size h' = Z.of_nat (length (ring h')) ∧
        hash h' = hash h.
Proof.
  intros Hb Hsame. destruct (built_ring h Hb) as (ns & Hns & Hring).
  pose proof (placed_nodes_filter (reset h) (reset (remove_server s h))
                s (servers h) ns Hns) as Hplaced.
  destruct (continuum_reset_ring (remove_server s h)
              (filter (λ n, server n ≠ s) ns)) as (h' & Hc & Hr & Hsz).
  { apply Hplaced. intros srv Hsrv Hne.
    unfold server_nodes.
    change (points_length (reset (remove_server s h)) srv)
      with (points_length (remove_server s h) srv).
    change (points_length (reset h) srv) with (points_length h srv).
    by rewrite Hsame. }
  exists h'. split; [exact Hc|]. split; [|split; [done|]].
  - by rewrite Hr, Hring, filter_sort_ring.
  - by destruct (continuum_frame _ _ Hc) as (_ & _ & _ & -> & _).
Qed.

Lemma owner_in_ring h key v :
  owner h key = Ret (Some v) → ∃ n, n ∈ ring h ∧ server n = v.
Proof.
  unfold owner. destruct (find h (hashValue h key)) as [i| |]; [|done..].
  cbn. unfold ring_at. destruct (i <? 0); [done|].
  destruct (ring h !! Z.to_nat i) as [n|] eqn:Hn; [|done].
  intros [= <-]. exists n. split; [|done]. by eapply list_elem_of_lookup_2.
Qed.

(** C2 (amended): for an instance whose ring is the continuum of its
    server set, when the servers that stay place as many points after the
    removal of [s] as before, [remove(s)] returns, and every key whose
    answer was not [s] keeps its answer. *)
Theorem remove_keeps_other_keys (h : HashRing) (s : string) :
  reachable h → built h → size h < 2 ^ 30 →
  (∀ srv, srv ∈ servers h → s_string srv ≠ s →
          points_length (remove_server s h) srv = points_length h srv) →
  ∃ h', remove s h = Ret h' ∧
        ∀ key r, fst <$> get key h = Ret r → r ≠ Some s →
                 fst <$> get key h' = Ret r.
Proof.
  intros Hr Hb Hbig Hsame.
  destruct (remove_ring h s Hb Hsame) as (h' & Hrem & Hring & Hsize & Hhash).
  exists h'. split; [done|]. intros key r Hget Hne.
  pose proof (reachable_invariant h Hr) as (Hsz & Hso & Hco & _).
  pose proof (reachable_invariant h' (reach_remove s h h' Hr Hrem))
    as (_ & Hso' & Hco' & _).
  rewrite (get_owner key h Hco) in Hget. rewrite (get_owner key h' Hco').
  assert (ring_sized h') as Hsized'.
  { split; [done|]. rewrite Hsize, Hring.
    pose proof (length_filter (λ n, server n ≠ s) (ring h)). lia. }
  rewrite (owner_successor h key) in Hget by done.
  rewrite (owner_successor h' key) by done.
  injection Hget as <-. f_equal.
  unfold hashValue, digest. rewrite Hhash, Hring.
  fold (digest h key). fold (hashValue h key).
  destruct (successor (ring h) (hashValue h key)) as [n|] eqn:Hsucc.
  - rewrite (successor_filter _ (ring h) _ n Hsucc); [done|].
    intros Hc. apply Hne. cbn. by rewrite Hc.
  - apply successor_None in Hsucc. by rewrite Hsucc.
Qed.

Lemma demo_equal_reachable : reachable (state_of demo_equal).
Proof.
  apply (reach_construct
           [demo_server "A" 1 0; demo_server "B" 1 0; demo_server "S" 1 0]
           demo_hash (demo_options 1)).
  vm_compute. reflexivity.
Defined.

Lemma demo_equal_built : built (state_of demo_equal).
Proof.
  apply (construct_built
           [demo_server "A" 1 0; demo_server "B" 1 0; demo_server "S" 1 0]
           demo_hash (demo_options 1)).
  vm_compute. reflexivity.
Defined.

Lemma remove_keeps_other_keys_witness :
  ∃ h', remove "S" (state_of demo_equal) = Ret h' ∧
        ∀ key r, fst <$> get key (state_of demo_equal) = Ret r →
                 r ≠ Some "S" → fst <$> get key h' = Ret r.
Proof.
  apply (remove_keeps_other_keys (state_of demo_equal) "S").
  - exact demo_equal_reachable.
  - exact demo_equal_built.
  - vm_compute. reflexivity.
  - intros srv Hsrv Hne.
    change (servers (state_of demo_equal)) with
      [demo_server "A" 1 0; demo_server "B" 1 0; demo_server "S" 1 0] in Hsrv.
    apply elem_of_cons in Hsrv as [->|Hsrv]; [vm_compute; reflexivity|].
    apply elem_of_cons in Hsrv as [->|Hsrv]; [vm_compute; reflexivity|].
    apply elem_of_cons in Hsrv as [->|Hsrv]; [by destruct Hne|].
    by apply elem_of_nil in Hsrv.
Defined.

(** Equal weights do not always give equal counts: in doubles
    [1 / 49 * 40 * 49] is just below 40, so each of 49 servers of weight 1
    places 39 points, and each of 48 places 40. *)
Lemma equal_weights_rounding :
  points_length (demo_many 49) (demo_server "s0" 1 0) = Int 39 ∧
  points_length (demo_many 48) (demo_server "s0" 1 0) = Int 40.
Proof. split; vm_compute; reflexivity. Qed.

(** C2, as stated, fails with unequal weights: with A and B of weight 1, S
    of weight 2 and two vnodes, A and B place one point each beside S and
    two each without it; the key "k" (coordinate 12) is answered by B
    (node 20) before [remove("S")] and by A (the new node 15) after. *)
Lemma remove_reassigns_a_kept_key :
  demo_weighted = Ret (state_of demo_weighted) ∧
  fst <$> get "k" (state_of demo_weighted) = Ret (Some "B") ∧
  remove "S" (state_of demo_weighted) ≫= (λ h', fst <$> get "k" h')
    = Ret (Some "A").
Proof. vm_compute. repeat split. Qed.

(** ** Unknown ids *)

Lemma with_servers_same h : with_servers (vnodes h) (servers h) h = h.
Proof. by destruct h. Qed.

Lemma remove_server_unknown h s :
  s ∉ ids h → vnodes h !! s = None → remove_server s h = h.
Proof.
  intros Hs Hv. unfold remove_server.
  rewrite (delete_id _ _ Hv), filter_all; [apply with_servers_same|].
  intros srv Hsrv Heq. apply Hs. unfold ids.
  apply list_elem_of_fmap. by exists srv.
Qed.

Lemma cache_pass_unchanged from to (l : list (string * string)) acc :
  (∀ e, e ∈ l → e.2 ≠ from) →
  foldl (λ acc e, if decide (e.2 = from) then cache_set e.1 to acc else acc)
        acc l = acc.
Proof.
  revert acc. induction l as [|e l IH]; intros acc Hall; [done|].
  cbn [foldl]. destruct (decide (e.2 = from)) as [Heq|_].
  - destruct (Hall e); [apply elem_of_cons; by left|done].
  - apply IH. intros e' He'. apply Hall, elem_of_cons. by right.
Qed.

(** C8 (amended): [remove(s)] of an id that is neither in the server set
    nor in the vnode dictionary, on an instance whose ring is the continuum
    of its server set, returns and leaves the server set, the dictionary,
    the ring and every key's answer as they were. [swap(from, to)] with a
    [from] that is not in the server set and owns no node leaves the server
    set, the ring, the cache and every key's answer as they were, and the
    dictionary at every id other than [from] and [to]. *)
Theorem unknown_id_no_op :
  (∀ h s,
     reachable h → built h → s ∉ ids h → vnodes h !! s = None →
     ∃ h', remove s h = Ret h' ∧
           servers h' = servers h ∧ vnodes h' = vnodes h ∧
           ring h' = ring h ∧
           ∀ key, fst <$> get key h' = fst <$> get key h) ∧
  (∀ h from to connection,
     reachable h → from ∉ ids h → (∀ n, n ∈ ring h → server n ≠ from) →
     servers (swap from to connection h) = servers h ∧
     ring (swap from to connection h) = ring h ∧
     cache (swap from to connection h) = cache h ∧
     (∀ key, fst <$> get key (swap from to connection h) =
             fst <$> get key h) ∧
     (∀ k, k ≠ from → k ≠ to →
           vnodes (swap from to connection h) !! k = vnodes h !! k)).
Proof.
  split.
  - intros h s Hr Hb Hs Hv.
    pose proof Hb as (h' & Hc & Hring).
    assert (remove s h = Ret h') as Hrem.
    { unfold remove. by rewrite remove_server_unknown. }
    exists h'. split; [done|].
    destruct (continuum_frame _ _ Hc) as (Hss & Hvs & _ & Hh & _).
    split; [done|]. split; [done|]. split; [done|].
    intros key.
    pose proof (reachable_invariant h Hr) as (Hsz & _ & Hco & _).
    pose proof (reachable_invariant h' (reach_remove s h h' Hr Hrem))
      as (Hsz' & _ & Hco' & _).
    rewrite (get_owner key h Hco), (get_owner key h' Hco').
    apply owner_ext; [done| |done]. by rewrite Hsz, Hsz', Hring.
  - intros h from to conn Hr Hfrom Hnodes.
    pose proof (reachable_invariant h Hr) as Hinv.
    pose proof (swap_invariant from to conn h Hinv) as (_ & _ & Hco' & _).
    destruct Hinv as (_ & _ & Hco & Hwf & _).
    assert (ring (swap from to conn h) = ring h) as Hring.
    { cbn. rewrite <- (list_fmap_id (ring h)) at 2.
      apply list_fmap_ext. intros i n Hn.
      destruct (decide (server n = from)) as [Heq|]; [|done].
      destruct (Hnodes n); [by eapply list_elem_of_lookup_2|done]. }
    split; [|split; [done|split; [|split]]].
    + cbn. rewrite <- (list_fmap_id (servers h)) at 2.
      apply list_fmap_ext. intros i srv Hsrv.
      destruct (decide (s_string srv = from)) as [Heq|]; [|done].
      destruct Hfrom. unfold ids. apply list_elem_of_fmap.
      exists srv. split; [done|]. by eapply list_elem_of_lookup_2.
    + cbn. unfold cache_forEach. apply cache_pass_unchanged.
      intros [k v] Hkv Heq. cbn in Heq. subst v.
      destruct Hwf as [Hnd _].
      pose proof (Hco k from (assoc_NoDup k from _ Hnd Hkv)) as Hown.
      apply owner_in_ring in Hown as (n & Hn & Hsrv).
      by destruct (Hnodes n Hn).
    + intros key.
      rewrite (get_owner key h Hco), (get_owner key _ Hco'), swap_owner.
      destruct (owner h key) as [[v|]| |] eqn:Hown; cbn; try done.
      apply owner_in_ring in Hown as (n & Hn & <-).
      unfold relabel. by destruct (decide (server n = from));
        [destruct (Hnodes n Hn)|].
    + intros k Hk1 Hk2. cbn.
      rewrite lookup_delete_ne by done. by rewrite lookup_insert_ne.
Qed.

Lemma demo_equal_unknown : "X" ∉ ids (state_of demo_equal).
Proof.
  vm_compute. intros Hin.
  apply elem_of_cons in Hin as [Hin|Hin]; [discriminate|].
  apply elem_of_cons in Hin as [Hin|Hin]; [discriminate|].
  apply elem_of_cons in Hin as [Hin|Hin]; [discriminate|].
  by apply elem_of_nil in Hin.
Defined.

Lemma demo_equal_owns_nothing n :
  n ∈ ring (state_of demo_equal) → server n ≠ "X".
Proof.
  revert n. apply Forall_forall. vm_compute.
  repeat (constructor; [discriminate|]). constructor.
Defined.

Lemma unknown_id_no_op_witness :
  (∃ h', remove "X" (state_of demo_equal) = Ret h' ∧
         servers h' = servers (state_of demo_equal) ∧
         vnodes h' = vnodes (state_of demo_equal) ∧
         ring h' = ring (state_of demo_equal) ∧
         ∀ key, fst <$> get key h' = fst <$> get key (state_of demo_equal)) ∧
  (servers (swap "X" "D" (demo_server "D" 1 0) (state_of demo_equal)) =
     servers (state_of demo_equal) ∧
   ring (swap "X" "D" (demo_server "D" 1 0) (state_of demo_equal)) =
     ring (state_of demo_equal) ∧
   cache (swap "X" "D" (demo_server "D" 1 0) (state_of demo_equal)) =
     cache (state_of demo_equal) ∧
   (∀ key, fst <$> get key (swap "X" "D" (demo_server "D" 1 0)
                                 (state_of demo_equal)) =
           fst <$> get key (state_of demo_equal)) ∧
   (∀ k, k ≠ "X" → k ≠ "D" →
         vnodes (swap "X" "D" (demo_server "D" 1 0) (state_of demo_equal)) !! k =
         vnodes (state_of demo_equal) !! k)).
Proof.
  split.
  - apply (proj1 unknown_id_no_op (state_of demo_equal) "X").
    + exact demo_equal_reachable.
    + exact demo_equal_built.
    + exact demo_equal_unknown.
    + vm_compute. reflexivity.
  - apply (proj2 unknown_id_no_op (state_of demo_equal) "X" "D").
    + exact demo_equal_reachable.
    + exact demo_equal_unknown.
    + exact demo_equal_owns_nothing.
Defined.

(** C8, as stated, fails in a state that a [swap] has left: after
    [swap("A", "D")] the nodes of A carry the label D at the coordinates of
    A; [remove("X")] of an id that is in no server set rebuilds the ring,
    which places D at its own coordinates, and the key "j" (coordinate 5)
    moves from D (node 10) to B (node 20). *)
Lemma remove_unknown_after_swap_moves_a_key :
  demo_pair = Ret (state_of demo_pair) ∧
  ids (swap "A" "D" (demo_server "D" 1 0) (state_of demo_pair)) = ["D"; "B"] ∧
  fst <$> get "j" (swap "A" "D" (demo_server "D" 1 0) (state_of demo_pair))
    = Ret (Some "D") ∧
  remove "X" (swap "A" "D" (demo_server "D" 1 0) (state_of demo_pair))
    ≫= (λ h', fst <$> get "j" h') = Ret (Some "B").
Proof. vm_compute. repeat split. Qed.

(** [swap] with an unknown [from] overwrites the vnode count of [to]:
    B had the override 2, and reads [undefined] afterwards. *)
Lemma swap_unknown_overwrites_override :
  vnodes (state_of demo_overrides) !! "B" = Some (Number 2) ∧
  ("X" ∉ ids (state_of demo_overrides)) ∧
  vnodes (swap "X" "B" (demo_server "B" 1 0) (state_of demo_overrides)) !! "B"
    = Some Undefined.
Proof.
  split; [vm_compute; reflexivity|]. split; [|vm_compute; reflexivity].
  vm_compute. intros Hin.
  apply elem_of_cons in Hin as [Hin|Hin]; [discriminate|].
  apply elem_of_cons in Hin as [Hin|Hin]; [discriminate|].
  by apply elem_of_nil in Hin.
Qed.

(** ** Coordinates *)


















(** * Further properties *)

(** ** [points] *)

Lemma coordinates_of_app srv r1 r2 :
  coordinates_of srv (r1 ++ r2) = coordinates_of srv r1 ++ coordinates_of srv r2.
Proof. unfold coordinates_of. by rewrite filter_app, fmap_app. Qed.

Lemma coordinates_of_cons srv n r :
  coordinates_of srv (n :: r) =
  (if decide (server n = srv) then [value n] else []) ++ coordinates_of srv r.
Proof.
  unfold coordinates_of. rewrite filter_cons.
  by destruct (decide (server n = srv)).
Qed.

(** The loop appends, to the list of each key, the coordinates of that
    server's nodes among the nodes visited. *)
Lemma points_loop_lookup r idx ns nodes :
  Forall2 (λ i n, r !! i = Some n) idx ns →
  ∃ m, points_loop r idx nodes = Ret m ∧
       ∀ s, m !! s = (λ vs, vs ++ coordinates_of s ns) <$> nodes !! s.
Proof.
  intros Hall. revert nodes.
  induction Hall as [|i n idx ns Hi _ IH]; intros nodes.
  - exists nodes. split; [done|]. intros s.
    destruct (nodes !! s) as [vs|]; [|done].
    change (coordinates_of s []) with (@nil Z). cbn. by rewrite app_nil_r.
  - cbn [points_loop]. rewrite Hi.
    destruct (IH (match nodes !! server n with
                  | Some vs => <[server n := vs ++ [value n]]> nodes
                  | None => nodes
                  end)) as (m & Hm & Hlook).
    exists m. split; [done|]. intros s. rewrite Hlook, coordinates_of_cons.
    destruct (decide (server n = s)) as [<-|Hne].
    + destruct (nodes !! server n) as [vs|] eqn:Hvs.
      * rewrite lookup_insert_eq. cbn. by rewrite <- app_assoc.
      * by rewrite Hvs.
    + destruct (nodes !! server n) as [vs|] eqn:Hvs.
      * by rewrite lookup_insert_ne.
      * done.
Qed.

Lemma points_keys (ss : list string) s :
  foldl (λ nodes srv, <[srv := []]> nodes) (∅ : gmap string (list Z)) ss !! s =
  if decide (s ∈ ss) then Some [] else None.
Proof.
  assert (∀ (m : gmap string (list Z)),
            foldl (λ nodes srv, <[srv := []]> nodes) m ss !! s =
            if decide (s ∈ ss) then Some [] else m !! s) as Hgen.
  { induction ss as [|x ss IH]; intros m; cbn [foldl].
    - destruct (decide (s ∈ [])) as [Hin|]; [by apply elem_of_nil in Hin|done].
    - rewrite IH.
      destruct (decide (s ∈ ss)) as [Hin|Hin].
      + destruct (decide (s ∈ x :: ss)) as [|Hn]; [done|].
        destruct Hn. apply elem_of_cons. by right.
      + destruct (decide (s = x)) as [->|Hne].
        * rewrite lookup_insert_eq.
          destruct (decide (x ∈ x :: ss)) as [|Hn]; [done|].
          destruct Hn. apply elem_of_cons. by left.
        * rewrite lookup_insert_ne by done.
          destruct (decide (s ∈ x :: ss)) as [Hc|]; [|done].
          apply elem_of_cons in Hc as [?|?]; done. }
  rewrite Hgen. by destruct (decide (s ∈ ss)).
Qed.

Lemma coordinates_of_ascending srv r :
  ring_sorted r → ascending (coordinates_of srv r).
Proof.
  unfold ring_sorted, ascending. intros Hs.
  induction Hs as [|n r Hs IH Hall]; [constructor|].
  rewrite coordinates_of_cons.
  destruct (decide (server n = srv)); [|done].
  cbn. constructor; [done|].
  unfold coordinates_of. apply Forall_fmap, Forall_forall.
  intros m Hm. apply list_elem_of_filter in Hm as [_ Hm].
  rewrite Forall_forall in Hall. by apply Hall.
Qed.

(** X1: in every state an instance goes through, [points] returns a
    dictionary whose keys are the servers asked for (the keys of the vnode
    dictionary when no array is given); each holds the coordinates of that
    server's nodes in ring order, so ascending, and the empty list for a
    server without nodes. *)
Theorem points_coordinates (h : HashRing) (arg : option (list string)) :
  reachable h →
  ∃ m, points arg h = Ret m ∧
       (∀ s, m !! s =
             if decide (s ∈ match arg with
                            | Some l => l
                            | None => elements (dom (vnodes h))
                            end)
             then Some (coordinates_of s (ring h)) else None) ∧
       (∀ s vs, m !! s = Some vs → ascending vs).
Proof.
  intros Hr. destruct (reachable_invariant h Hr) as (Hsz & Hso & _).
  unfold points. rewrite Hsz, Nat2Z.id.
  set (ss := match arg with Some l => l | None => elements (dom (vnodes h)) end).
  destruct (points_loop_lookup (ring h) (seq 0 (length (ring h))) (ring h)
              (foldl (λ nodes srv, <[srv := []]> nodes) ∅ ss))
    as (m & Hm & Hlook).
  { pose proof (seq_lookup_nodes (ring h) 0 (length (ring h)) ltac:(lia)) as Hall.
    by rewrite drop_0, firstn_all in Hall. }
  exists m. split; [done|].
  assert (∀ s, m !! s = if decide (s ∈ ss)
                        then Some (coordinates_of s (ring h)) else None) as Hkeys.
  { intros s. rewrite Hlook, points_keys. by destruct (decide (s ∈ ss)). }
  split; [done|]. intros s vs. rewrite Hkeys.
  destruct (decide (s ∈ ss)); [|done].
  intros [= <-]. by apply coordinates_of_ascending.
Qed.

Lemma points_coordinates_witness :
  ∃ m, points (Some ["A"; "Z"]) (state_of demo_pair) = Ret m ∧
       (∀ s, m !! s =
             if decide (s ∈ ["A"; "Z"])
             then Some (coordinates_of s (ring (state_of demo_pair))) else None) ∧
       (∀ s vs, m !! s = Some vs → ascending vs).
Proof.
  apply (points_coordinates (state_of demo_pair) (Some ["A"; "Z"])).
  exact demo_pair_reachable.
Defined.

(** ** What else every reachable state keeps *)

Lemma server_nodes_multiple h srv ns :
  server_nodes h srv = Ret ns → (replicas h | length ns)%nat.
Proof.
  unfold server_nodes.
  destruct (for_turns (points_length h srv)) as [k| |]; [|done..].
  intros [= <-]. rewrite vnode_nodes_length, length_seq.
  exists k. done.
Qed.

Lemma placed_nodes_owned h ss ns :
  placed_nodes h ss = Ret ns →
  (∀ n, n ∈ ns → server n ∈ s_string <$> ss) ∧ (replicas h | length ns)%nat.
Proof.
  revert ns. induction ss as [|srv ss IH]; intros ns Hns.
  - injection Hns as <-. split; [by intros n ?%elem_of_nil|]. by exists 0%nat.
  - cbn [placed_nodes] in Hns.
    destruct (server_nodes h srv) as [ns1| |] eqn:Hns1; [|done..].
    destruct (placed_nodes h ss) as [rest| |] eqn:Hrest; [|done..].
    injection Hns as <-. destruct (IH rest eq_refl) as [Hin Hdiv]. split.
    + intros n [Hn|Hn]%elem_of_app; rewrite fmap_cons; apply elem_of_cons.
      * left. by eapply server_nodes_server.
      * right. by apply Hin.
    + rewrite length_app. apply Nat.divide_add_r; [|done].
      by eapply server_nodes_multiple.
Qed.

Lemma rebuild_owned h0 h :
  ring h0 = [] → continuum h0 = Ret h →
  (∀ n, n ∈ ring h → server n ∈ ids h) ∧ (replicas h | length (ring h))%nat.
Proof.
  intros Hring Hc. unfold continuum in Hc.
  destruct (bool_decide (servers h0 = [])).
  - injection Hc as <-. rewrite Hring.
    split; [by intros n ?%elem_of_nil|]. by exists 0%nat.
  - destruct (placed_nodes h0 (servers h0)) as [ns| |] eqn:Hns; [|done..].
    injection Hc as <-. cbn.
    rewrite Hring, write_from_start_nil, sort_ring_length.
    destruct (placed_nodes_owned h0 (servers h0) ns Hns) as [Hin Hdiv].
    split; [|done]. intros n Hn. apply Hin. by apply sort_ring_elem.
Qed.

(** [get] changes the cache only, and not its bound. *)
Lemma get_frame key h r h' :
  get key h = Ret (r, h') →
  ring h' = ring h ∧ size h' = size h ∧ servers h' = servers h ∧
  vnodes h' = vnodes h ∧ replicas h' = replicas h ∧ hash h' = hash h ∧
  vnode h' = vnode h ∧ maxSize (cache h') = maxSize (cache h).
Proof.
  unfold get, cache_get.
  destruct (cache_lookup key (cache h)) as [v|].
  - destruct v as [|a s].
    + destruct (find _ _) as [i| |]; [|done..]. cbn.
      destruct (ring_at (ring h) i); intros [= <- <-]; done.
    + intros [= <- <-]. done.
  - destruct (find _ _) as [i| |]; [|done..]. cbn.
    destruct (ring_at _ i); intros [= <- <-]; done.
Qed.

Lemma swap_cache_bound from to connection h :
  maxSize (cache (swap from to connection h)) = maxSize (cache h).
Proof.
  cbn. unfold cache_forEach.
  generalize (entries (cache h)) as l. generalize (cache h) as c.
  intros c l. revert c. induction l as [|e l IH]; intros c; [done|].
  cbn [foldl]. rewrite IH. by destruct (decide (e.2 = from)).
Qed.

Lemma reachable_keeps (h : HashRing) :
  reachable h →
  (∀ n, n ∈ ring h → server n ∈ ids h) ∧
  (replicas h | length (ring h))%nat ∧
  (replicas h = 3%nat ∨ replicas h = 4%nat) ∧
  (0 < maxSize (cache h))%nat.
Proof.
  induction 1 as [ss alg opts h Hc
                 |key h r h' _ IH Hget
                 |news h h' _ IH Hadd
                 |s h h' _ IH Hrem
                 |from to conn h _ IH
                 |h _ IH
                 |h _ IH].
  - destruct (rebuild_owned (initial ss alg opts) h eq_refl Hc) as [Hin Hdiv].
    destruct (continuum_frame _ _ Hc) as (_ & _ & _ & _ & Hrep & Hca & _).
    split; [done|]. split; [done|]. rewrite Hrep, Hca. cbn. split.
    + destruct (compatibility opts) as [c|]; [|by right].
      destruct (decide (c = "hash_ring")); [by left|by right].
    + destruct (maxCacheSize opts) as [[|n]|]; lia.
  - destruct IH as (Hin & Hdiv & Hrep & Hmax).
    destruct (get_frame key h r h' Hget)
      as (Hring & _ & Hss & _ & Hreps & _ & _ & Hbound).
    unfold ids. rewrite Hring, Hss, Hreps, Hbound. done.
  - destruct IH as (_ & _ & Hrep & Hmax).
    destruct (rebuild_owned (reset (add_servers news h)) h' eq_refl Hadd)
      as [Hin Hdiv].
    destruct (continuum_frame _ _ Hadd) as (_ & _ & _ & _ & Hreps & Hca & _).
    split; [done|]. split; [done|]. by rewrite Hreps, Hca.
  - destruct IH as (_ & _ & Hrep & Hmax).
    destruct (rebuild_owned (reset (remove_server s h)) h' eq_refl Hrem)
      as [Hin Hdiv].
    destruct (continuum_frame _ _ Hrem) as (_ & _ & _ & _ & Hreps & Hca & _).
    split; [done|]. split; [done|]. by rewrite Hreps, Hca.
  - destruct IH as (Hin & Hdiv & Hrep & Hmax).
    split; [|split; [|split]].
    + intros n Hn. cbn in Hn.
      apply list_elem_of_fmap in Hn as (n0 & -> & Hn0).
      specialize (Hin n0 Hn0). unfold ids in *. cbn [servers swap with_servers].
      apply list_elem_of_fmap in Hin as (srv & Hsrv & Hin).
      apply list_elem_of_fmap.
      destruct (decide (server n0 = from)) as [Heq|Hne].
      * exists {| s_string := to; s_host := s_host conn; s_port := s_port conn;
                  s_weight := s_weight srv; s_vnodes := s_vnodes srv |}.
        split; [done|]. apply list_elem_of_fmap. exists srv. split; [|done].
        by rewrite decide_True by congruence.
      * exists srv. split; [done|]. apply list_elem_of_fmap. exists srv.
        split; [|done]. by rewrite decide_False by congruence.
    + cbn. by rewrite length_fmap.
    + done.
    + by rewrite swap_cache_bound.
  - destruct IH as (_ & _ & Hrep & Hmax). split; [by intros n ?%elem_of_nil|].
    split; [by exists 0%nat|]. done.
  - destruct IH as (_ & _ & Hrep & Hmax). split; [by intros n ?%elem_of_nil|].
    split; [by exists 0%nat|]. done.
Qed.



(** ** [get] on a non-empty ring *)

Lemma owner_nonempty h key :
  ring_sized h → ring h ≠ [] →
  ∃ n, n ∈ ring h ∧ owner h key = Ret (Some (server n)).
Proof.
  intros Hsz Hne. unfold owner.
  destruct (find_in_ring h (hashValue h key) Hsz Hne) as (i & -> & Hi).
  destruct (ring_at_Some (ring h) i Hi) as [n Hn].
  exists n. cbn. rewrite Hn. split; [|done].
  unfold ring_at in Hn. destruct (i <? 0); [done|].
  by eapply list_elem_of_lookup_2.
Qed.

Lemma cache_set_head key val c :
  (0 < maxSize c)%nat → cache_lookup key (cache_set key val c) = Some val.
Proof.
  intros Hmax. unfold cache_lookup, cache_set. cbn [entries].
  destruct (maxSize c) as [|k]; [lia|]. cbn.
  by destruct (decide (key = key)).
Qed.

(** A key that [get] answered is cached with that answer. *)
Lemma get_cached key h v h' :
  (0 < maxSize (cache h))%nat →
  get key h = Ret (Some v, h') → cache_lookup key (cache h') = Some v.
Proof.
  intros Hmax. unfold get.
  pose proof (cache_get_lookup key (cache h) key) as Hlook.
  pose proof (cache_get_fst key (cache h)) as Hfst.
  assert (maxSize (cache_get key (cache h)).2 = maxSize (cache h)) as Hbound.
  { unfold cache_get. by destruct (cache_lookup key (cache h)). }
  destruct (cache_get key (cache h)) as [hit c]. cbn in *. subst hit.
  assert ((i ← find (with_cache c h) (hashValue (with_cache c h) key);
           match ring_at (ring (with_cache c h)) i with
           | None => Ret (None, with_cache c h)
           | Some node =>
               Ret (Some (server node),
                    with_cache (cache_set key (server node)
                                          (cache (with_cache c h)))
                               (with_cache c h))
           end) = Ret (Some v, h') →
          cache_lookup key (cache h') = Some v) as Hmiss.
  { destruct (find (with_cache c h) (hashValue (with_cache c h) key))
      as [i| |]; [|done..]. cbn.
    destruct (ring_at (ring h) i) as [node|]; [|done].
    intros [= <- <-]. cbn. apply cache_set_head. lia. }
  destruct (cache_lookup key (cache h)) as [[|a s]|] eqn:Hhit; [done| |done].
  intros [= <- <-]. done.
Qed.

(** X3: in a state an instance goes through whose ring is not empty, [get]
    returns a server id (never [undefined]), that id is an id of the server
    set, the key is cached with it afterwards, and the ring and the server
    set are as before. *)
Theorem get_answers (h : HashRing) (key : string) :
  reachable h → size h < 2 ^ 30 → ring h ≠ [] →
  ∃ v h', get key h = Ret (Some v, h') ∧
          v ∈ ids h ∧
          cache_lookup key (cache h') = Some v ∧
          ring h' = ring h ∧ servers h' = servers h.
Proof.
  intros Hr Hbig Hne.
  pose proof (reachable_invariant h Hr) as Hinv.
  destruct (reachable_keeps h Hr) as (Hin & _ & _ & Hmax).
  destruct (get_total key h Hinv Hbig) as (r & h' & Hget & Hown).
  destruct Hinv as (Hsz & _).
  destruct (owner_nonempty h key) as (n & Hn & Hown'); [by split|done|].
  rewrite Hown' in Hown. injection Hown as <-.
  exists (server n), h'. split; [done|]. split; [by apply Hin|].
  split; [by apply (get_cached key h)|].
  destruct (get_frame key h _ h' Hget) as (? & _ & ? & _). done.
Qed.

Lemma get_answers_witness :
  ∃ v h', get "k" (state_of demo_pair) = Ret (Some v, h') ∧
          v ∈ ids (state_of demo_pair) ∧
          cache_lookup "k" (cache h') = Some v ∧
          ring h' = ring (state_of demo_pair) ∧
          servers h' = servers (state_of demo_pair).
Proof.
  apply (get_answers (state_of demo_pair) "k").
  - exact demo_pair_reachable.
  - vm_compute. reflexivity.
  - vm_compute. discriminate.
Defined.

(** ** The configuration is fixed at construction *)

(** X4: [get], [add], [remove], [swap], [reset] and [end] leave the points
    per server, the base vnode count, the number of replicas, the digest
    provider and the cache bound as the constructor set them. *)
Theorem configuration_fixed :
  (∀ key h r h', get key h = Ret (r, h') → configuration h' = configuration h) ∧
  (∀ news h h', add news h = Ret h' → configuration h' = configuration h) ∧
  (∀ s h h', remove s h = Ret h' → configuration h' = configuration h) ∧
  (∀ from to connection h,
     configuration (swap from to connection h) = configuration h) ∧
  (∀ h, configuration (reset h) = configuration h) ∧
  (∀ h, configuration (end_ h) = configuration h).
Proof.
  unfold configuration. split; [|split; [|split; [|split; [|split]]]].
  - intros key h r h' Hget.
    destruct (get_frame key h r h' Hget)
      as (_ & _ & _ & _ & -> & -> & -> & ->).
    assert (pps h' = pps h) as ->; [|done].
    destruct (get_state key h r h' Hget) as (c' & -> & _). done.
  - intros news h h' Hadd.
    destruct (continuum_frame _ _ Hadd) as (_ & _ & -> & -> & -> & -> & ->).
    done.
  - intros s h h' Hrem.
    destruct (continuum_frame _ _ Hrem) as (_ & _ & -> & -> & -> & -> & ->).
    done.
  - intros from to conn h. by rewrite swap_cache_bound.
  - done.
  - done.
Qed.

Lemma configuration_fixed_witness :
  configuration (state_of (remove "A" (state_of demo_pair))) =
  configuration (state_of demo_pair).
Proof.
  apply (proj1 (proj2 (proj2 configuration_fixed)) "A" (state_of demo_pair)).
  vm_compute. reflexivity.
Defined.

(** ** Servers that leave the ring *)

Lemma collect_elem r sz unique idx acc out :
  collect r sz unique idx acc = Ret out →
  ∀ x, x ∈ (match out with inl res => res | inr res => res end) →
       x ∈ acc ∨ ∃ n, n ∈ r ∧ server n = x.
Proof.
  revert acc. induction idx as [|i idx IH]; intros acc Hc x Hx.
  - injection Hc as <-. by left.
  - cbn [collect] in Hc. destruct (r !! i) as [node|] eqn:Hi; [|done].
    set (acc' := if unique && bool_decide (server node ∈ acc) then acc
                 else acc ++ [server node]) in *.
    assert (∀ y, y ∈ acc' → y ∈ acc ∨ ∃ n, n ∈ r ∧ server n = y) as Hacc'.
    { intros y Hy. subst acc'.
      destruct (unique && bool_decide (server node ∈ acc)); [by left|].
      apply elem_of_app in Hy as [Hy|Hy]; [by left|].
      apply list_elem_of_singleton in Hy as ->. right.
      exists node. split; [|done]. by eapply list_elem_of_lookup_2. }
    destruct (bool_decide (length acc' = sz)).
    + injection Hc as <-. by apply Hacc'.
    + destruct (IH acc' Hc x Hx) as [Hin|Hin]; [by apply Hacc'|by right].
Qed.

(** [range] lists servers of nodes of the ring only. *)
Lemma range_elem key sz unique h res :
  range key sz unique h = Ret res →
  ∀ x, x ∈ res → ∃ n, n ∈ ring h ∧ server n = x.
Proof.
  unfold range. destruct (size h =? 0).
  { intros [= <-] x Hx. by apply elem_of_nil in Hx. }
  destruct (find h (hashValue h key)) as [p| |]; [|done..].
  cbn [mbind result_bind].
  set (n := match sz with Some (S n) => S n | _ => length (servers h) end).
  destruct (collect (ring h) n (default true unique) _ []) as [first| |] eqn:Hfirst;
    [|done..].
  cbn [mbind result_bind].
  pose proof (collect_elem _ _ _ _ _ _ Hfirst) as Hel1.
  destruct first as [res1|acc].
  - intros [= <-] x Hx. destruct (Hel1 x Hx) as [Hnil|Hn]; [|done].
    by apply elem_of_nil in Hnil.
  - destruct (collect (ring h) n (default true unique) _ acc) as [second| |]
      eqn:Hsecond; [|done..].
    cbn [mbind result_bind].
    pose proof (collect_elem _ _ _ _ _ _ Hsecond) as Hel2.
    assert (∀ x, x ∈ match second with inl r => r | inr r => r end →
                 ∃ n, n ∈ ring h ∧ server n = x) as Hboth.
    { intros x Hx. destruct (Hel2 x Hx) as [Hacc|Hn]; [|done].
      destruct (Hel1 x Hacc) as [Hnil|Hn]; [|done].
      by apply elem_of_nil in Hnil. }
    destruct second; intros [= <-]; exact Hboth.
Qed.

Lemma get_from_ring key h r h' :
  cache_coherent h → get key h = Ret (Some r, h') →
  ∃ n, n ∈ ring h ∧ server n = r.
Proof.
  intros Hco Hget. apply (owner_in_ring h key).
  rewrite <- (get_owner key h Hco). by rewrite Hget.
Qed.

(** X5: after [remove(s)] has returned, [s] is not in the server set nor
    in the vnode dictionary, no node of the ring carries it, the cache is
    empty, and neither [get] nor [range] returns it for any key. *)
Theorem remove_forgets (s : string) (h h' : HashRing) :
  remove s h = Ret h' →
  (s ∉ ids h') ∧
  vnodes h' !! s = None ∧
  (∀ n, n ∈ ring h' → server n ≠ s) ∧
  entries (cache h') = [] ∧
  (∀ key r h'', get key h' = Ret (r, h'') → r ≠ Some s) ∧
  (∀ key sz unique res, range key sz unique h' = Ret res → s ∉ res).
Proof.
  intros Hrem.
  destruct (continuum_frame _ _ Hrem) as (Hss & Hvs & _ & _ & _ & Hca & _).
  destruct (rebuild_owned (reset (remove_server s h)) h' eq_refl Hrem)
    as [Hin _].
  assert (s ∉ ids h') as Hids.
  { unfold ids. rewrite Hss. cbn. intros Hc.
    apply list_elem_of_fmap in Hc as (srv & Heq & Hsrv).
    apply list_elem_of_filter in Hsrv as [Hne _]. by apply Hne. }
  assert (∀ n, n ∈ ring h' → server n ≠ s) as Hnodes.
  { intros n Hn Heq. apply Hids. rewrite <- Heq. by apply Hin. }
  assert (cache_coherent h') as Hco.
  { intros k v. unfold cache_lookup. by rewrite Hca. }
  split; [done|]. split; [rewrite Hvs; cbn; apply lookup_delete_eq|].
  split; [done|]. split; [by rewrite Hca|]. split.
  - intros key r h'' Hget ->.
    destruct (get_from_ring key h' s h'' Hco Hget) as (n & Hn & Heq).
    by apply (Hnodes n).
  - intros key sz unique res Hrange Hs.
    destruct (range_elem key sz unique h' res Hrange s Hs) as (n & Hn & Heq).
    by apply (Hnodes n).
Qed.

Lemma remove_forgets_witness :
  ("S" ∉ ids (state_of (remove "S" (state_of demo_weighted)))) ∧
  vnodes (state_of (remove "S" (state_of demo_weighted))) !! "S" = None ∧
  (∀ n, n ∈ ring (state_of (remove "S" (state_of demo_weighted))) →
        server n ≠ "S") ∧
  entries (cache (state_of (remove "S" (state_of demo_weighted)))) = [] ∧
  (∀ key r h'',
     get key (state_of (remove "S" (state_of demo_weighted))) = Ret (r, h'') →
     r ≠ Some "S") ∧
  (∀ key sz unique res,
     range key sz unique (state_of (remove "S" (state_of demo_weighted)))
       = Ret res → "S" ∉ res).
Proof.
  apply (remove_forgets "S" (state_of demo_weighted)).
  vm_compute. reflexivity.
Defined.

(** X6: in every state an instance goes through, after [swap(from, to)]
    with [to] different from [from], no node of the ring and no server of
    the set carries [from], the vnode dictionary has no entry for it, no
    cache entry holds it, and [get] and [range] never return it. *)
Theorem swap_forgets (from to : string) (connection : Server) (h : HashRing) :
  reachable h → from ≠ to →
  (from ∉ ids (swap from to connection h)) ∧
  vnodes (swap from to connection h) !! from = None ∧
  (∀ n, n ∈ ring (swap from to connection h) → server n ≠ from) ∧
  (∀ k, cache_lookup k (cache (swap from to connection h)) ≠ Some from) ∧
  (∀ key r h', get key (swap from to connection h) = Ret (r, h') →
               r ≠ Some from) ∧
  (∀ key sz unique res,
     range key sz unique (swap from to connection h) = Ret res → from ∉ res).
Proof.
  intros Hr Hne.
  pose proof (reachable_invariant _ (reach_swap from to connection h Hr))
    as (_ & _ & Hco & _).
  destruct (reachable_invariant h Hr) as (_ & _ & _ & Hwf & _).
  assert (∀ n, n ∈ ring (swap from to connection h) → server n ≠ from) as Hnodes.
  { intros n Hn. cbn in Hn. apply list_elem_of_fmap in Hn as (n0 & -> & _).
    destruct (decide (server n0 = from)); cbn; congruence. }
  split; [|split; [|split; [|split; [|split]]]].
  - unfold ids. cbn. intros Hc.
    apply list_elem_of_fmap in Hc as (srv & Heq & Hsrv).
    apply list_elem_of_fmap in Hsrv as (srv0 & -> & _).
    destruct (decide (s_string srv0 = from)); cbn in Heq; congruence.
  - cbn. apply lookup_delete_eq.
  - done.
  - intros k Hk. apply Hco in Hk. apply owner_in_ring in Hk as (n & Hn & Heq).
    by apply (Hnodes n).
  - intros key r h' Hget ->.
    destruct (get_from_ring key _ from h' Hco Hget) as (n & Hn & Heq).
    by apply (Hnodes n).
  - intros key sz unique res Hrange Hs.
    destruct (range_elem key sz unique _ res Hrange from Hs) as (n & Hn & Heq).
    by apply (Hnodes n).
Qed.

Lemma swap_forgets_witness :
  ("A" ∉ ids (swap "A" "D" (demo_server "D" 1 0) (state_of demo_pair))) ∧
  vnodes (swap "A" "D" (demo_server "D" 1 0) (state_of demo_pair)) !! "A" = None ∧
  (∀ n, n ∈ ring (swap "A" "D" (demo_server "D" 1 0) (state_of demo_pair)) →
        server n ≠ "A") ∧
  (∀ k, cache_lookup k (cache (swap "A" "D" (demo_server "D" 1 0)
                                    (state_of demo_pair))) ≠ Some "A") ∧
  (∀ key r h',
     get key (swap "A" "D" (demo_server "D" 1 0) (state_of demo_pair))
       = Ret (r, h') → r ≠ Some "A") ∧
  (∀ key sz unique res,
     range key sz unique (swap "A" "D" (demo_server "D" 1 0)
                               (state_of demo_pair)) = Ret res → "A" ∉ res).
Proof.
  apply (swap_forgets "A" "D" (demo_server "D" 1 0) (state_of demo_pair)).
  - exact demo_pair_reachable.
  - discriminate.
Defined.

(** ** Swapping back *)

Lemma relabel_back from to s : s ≠ to → relabel to from (relabel from to s) = s.
Proof.
  intros Hne. unfold relabel.
  destruct (decide (s = from)) as [->|Hs].
  - by destruct (decide (to = to)).
  - by destruct (decide (s = to)).
Qed.

(** X7: in a state an instance goes through, for a [to] that is neither in
    the server set nor in the vnode dictionary and a [from] that has a
    vnode entry, [swap(from, to)] followed by [swap(to, from)] gives back
    the ring, the ids and weights of the server set, the vnode dictionary,
    every cache entry and every key's answer. *)
Theorem swap_back (from to : string) (c1 c2 : Server) (h : HashRing) :
  reachable h → to ∉ ids h → vnodes h !! to = None →
  is_Some (vnodes h !! from) →
  ring (swap to from c2 (swap from to c1 h)) = ring h ∧
  ids (swap to from c2 (swap from to c1 h)) = ids h ∧
  s_weight <$> servers (swap to from c2 (swap from to c1 h)) =
    s_weight <$> servers h ∧
  vnodes (swap to from c2 (swap from to c1 h)) = vnodes h ∧
  (∀ k, cache_lookup k (cache (swap to from c2 (swap from to c1 h))) =
        cache_lookup k (cache h)) ∧
  (∀ key, fst <$> get key (swap to from c2 (swap from to c1 h)) =
          fst <$> get key h).
Proof.
  intros Hr Hto Hvto [x Hvfrom].
  assert (from ≠ to) as Hne by (intros ->; congruence).
  destruct (reachable_keeps h Hr) as (Hin & _).
  pose proof (reachable_invariant h Hr) as Hinv.
  pose proof (swap_invariant from to c1 h Hinv) as Hinv1.
  pose proof (swap_invariant to from c2 _ Hinv1) as Hinv2.
  destruct Hinv as (_ & _ & Hco & Hwf & _).
  destruct Hinv1 as (_ & _ & _ & Hwf1 & _).
  destruct Hinv2 as (_ & _ & Hco2 & _ & _).
  assert (∀ v, (∃ n, n ∈ ring h ∧ server n = v) → v ≠ to) as Hnot.
  { intros v (n & Hn & <-) Heq. apply Hto. rewrite <- Heq. by apply Hin. }
  assert (ring (swap to from c2 (swap from to c1 h)) = ring h) as Hring.
  { cbn. rewrite <- list_fmap_compose.
    transitivity (id <$> ring h); [|apply list_fmap_id].
    apply list_fmap_ext. intros i n Hn. cbn.
    assert (server n ≠ to) as Hn'.
    { apply Hnot. exists n. split; [|done]. by eapply list_elem_of_lookup_2. }
    destruct (decide (server n = from)) as [Heq|Hs]; cbn.
    - rewrite decide_True by done. rewrite <- Heq. by destruct n.
    - by rewrite decide_False by done. }
  split; [done|]. split; [|split; [|split; [|split]]].
  - unfold ids. cbn. rewrite <- !list_fmap_compose.
    apply list_fmap_ext. intros i srv Hsrv. cbn.
    assert (s_string srv ≠ to) as Hs'.
    { intros Heq. apply Hto. unfold ids. rewrite <- Heq.
      apply list_elem_of_fmap. exists srv. split; [done|].
      by eapply list_elem_of_lookup_2. }
    destruct (decide (s_string srv = from)) as [Heq|Hs]; cbn.
    + by rewrite decide_True by done.
    + by rewrite decide_False by done.
  - cbn. rewrite <- !list_fmap_compose.
    apply list_fmap_ext. intros i srv Hsrv. cbn.
    destruct (decide (s_string srv = from)) as [Heq|Hs]; cbn.
    + by rewrite decide_True by done.
    + by destruct (decide (s_string srv = to)).
  - apply map_eq. intros k. cbn.
    destruct (decide (k = to)) as [->|Hkto]; [by rewrite lookup_delete_eq|].
    rewrite (lookup_delete_ne _ to k) by done.
    destruct (decide (k = from)) as [->|Hkfrom].
    + rewrite lookup_insert_eq, (lookup_delete_ne _ from to) by done.
      by rewrite lookup_insert_eq, Hvfrom.
    + rewrite (lookup_insert_ne _ from k) by done.
      rewrite (lookup_delete_ne _ from k) by done.
      by rewrite lookup_insert_ne.
  - intros k.
    rewrite (proj2 (swap_cache to from c2 _ Hwf1)),
            (proj2 (swap_cache from to c1 h Hwf)).
    destruct (cache_lookup k (cache h)) as [v|] eqn:Hv; [|done].
    cbn. rewrite relabel_back; [done|].
    apply Hnot. by apply (owner_in_ring h k), Hco.
  - intros key. rewrite (get_owner key _ Hco2), (get_owner key h Hco).
    rewrite !swap_owner.
    destruct (owner h key) as [[v|]| |] eqn:Hown; try done.
    cbn. rewrite relabel_back; [done|].
    apply Hnot. by apply (owner_in_ring h key).
Qed.

Lemma swap_back_witness :
  ring (swap "D" "A" (demo_server "A" 1 0)
             (swap "A" "D" (demo_server "D" 1 0) (state_of demo_pair))) =
    ring (state_of demo_pair) ∧
  ids (swap "D" "A" (demo_server "A" 1 0)
            (swap "A" "D" (demo_server "D" 1 0) (state_of demo_pair))) =
    ids (state_of demo_pair) ∧
  s_weight <$> servers (swap "D" "A" (demo_server "A" 1 0)
                          (swap "A" "D" (demo_server "D" 1 0)
                                (state_of demo_pair))) =
    s_weight <$> servers (state_of demo_pair) ∧
  vnodes (swap "D" "A" (demo_server "A" 1 0)
               (swap "A" "D" (demo_server "D" 1 0) (state_of demo_pair))) =
    vnodes (state_of demo_pair) ∧
  (∀ k, cache_lookup k
          (cache (swap "D" "A" (demo_server "A" 1 0)
                       (swap "A" "D" (demo_server "D" 1 0)
                             (state_of demo_pair)))) =
        cache_lookup k (cache (state_of demo_pair))) ∧
  (∀ key, fst <$> get key (swap "D" "A" (demo_server "A" 1 0)
                                (swap "A" "D" (demo_server "D" 1 0)
                                      (state_of demo_pair))) =
          fst <$> get key (state_of demo_pair)).
Proof.
  apply (swap_back "A" "D" (demo_server "D" 1 0) (demo_server "A" 1 0)
                   (state_of demo_pair)).
  - exact demo_pair_reachable.
  - vm_compute. intros Hin.
    apply elem_of_cons in Hin as [Hin|Hin]; [discriminate|].
    apply elem_of_cons in Hin as [Hin|Hin]; [discriminate|].
    by apply elem_of_nil in Hin.
  - vm_compute. reflexivity.
  - exists (Number 0). vm_compute. reflexivity.
Defined.

(** ** [add] *)

Definition index_le (a b : Server) : Prop := (index_of a ≤ index_of b)%N.

Lemma sort_indexed_cons c l :
  sort_indexed (c :: l) = insert_indexed c (sort_indexed l).
Proof. done. Qed.

Lemma insert_indexed_perm srv l : insert_indexed srv l ≡ₚ srv :: l.
Proof.
  induction l as [|c l IH]; [done|]. cbn [insert_indexed].
  destruct (index_of srv <=? index_of c)%N; [done|].
  by rewrite IH, Permutation_swap.
Qed.

Lemma sort_indexed_perm l : sort_indexed l ≡ₚ l.
Proof.
  induction l as [|c l IH]; [done|].
  by rewrite sort_indexed_cons, insert_indexed_perm, IH.
Qed.

Lemma insert_indexed_sorted srv l :
  StronglySorted index_le l → StronglySorted index_le (insert_indexed srv l).
Proof.
  induction 1 as [|c l Hs IH Hall]; cbn [insert_indexed].
  - by repeat constructor.
  - destruct (N.leb_spec (index_of srv) (index_of c)) as [Hle|Hgt].
    + constructor; [by constructor|]. constructor; [done|].
      eapply Forall_impl; [exact Hall|]. unfold index_le. intros; lia.
    + constructor; [done|]. rewrite insert_indexed_perm.
      constructor; [unfold index_le; lia|done].
Qed.

Lemma sort_indexed_sorted l : StronglySorted index_le (sort_indexed l).
Proof.
  induction l as [|c l IH]; [constructor|].
  rewrite sort_indexed_cons. by apply insert_indexed_sorted.
Qed.

Lemma filter_insert_indexed (P : Server → Prop) `{!∀ x, Decision (P x)} srv l :
  StronglySorted index_le l →
  filter P (insert_indexed srv l) =
    if decide (P srv) then insert_indexed srv (filter P l) else filter P l.
Proof.
  induction 1 as [|c l Hs IH Hall]; cbn [insert_indexed].
  - rewrite filter_cons, !filter_nil. by destruct (decide (P srv)).
  - destruct (N.leb_spec (index_of srv) (index_of c)) as [Hle|Hgt].
    + rewrite (filter_cons P srv). destruct (decide (P srv)); [|done].
      rewrite filter_cons. destruct (decide (P c)).
      * cbn [insert_indexed].
        by destruct (N.leb_spec (index_of srv) (index_of c)); [|lia].
      * destruct (filter P l) as [|d l'] eqn:Hf; [done|].
        cbn [insert_indexed].
        assert (d ∈ l) as Hd.
        { eapply (list_elem_of_filter P). rewrite Hf. by left. }
        rewrite Forall_forall in Hall. specialize (Hall d Hd).
        unfold index_le in Hall.
        by destruct (N.leb_spec (index_of srv) (index_of d)); [|lia].
    + rewrite (filter_cons P c), IH, (filter_cons P c).
      destruct (decide (P c)); destruct (decide (P srv)); try done.
      cbn [insert_indexed].
      by destruct (N.leb_spec (index_of srv) (index_of c)); [lia|].
Qed.

Lemma filter_sort_indexed (P : Server → Prop) `{!∀ x, Decision (P x)} l :
  filter P (sort_indexed l) = sort_indexed (filter P l).
Proof.
  induction l as [|c l IH]; [done|].
  rewrite sort_indexed_cons.
  rewrite filter_insert_indexed by apply sort_indexed_sorted.
  rewrite filter_cons. destruct (decide (P c)); [|done].
  by rewrite sort_indexed_cons, IH.
Qed.

Lemma filter_swap {A : Type} (P Q : A → Prop)
    `{!∀ x, Decision (P x), !∀ x, Decision (Q x)} (l : list A) :
  filter P (filter Q l) = filter Q (filter P l).
Proof.
  rewrite !list_filter_filter. apply list_filter_iff. tauto.
Qed.

Lemma own_order_perm l : own_order l ≡ₚ l.
Proof.
  unfold own_order. rewrite sort_indexed_perm.
  induction l as [|c l IH]; [done|].
  rewrite !filter_cons.
  destruct (decide (is_Some (array_index (s_string c)))) as [Hs|Hn].
  - rewrite decide_False by (intros Hc; destruct Hs as [? Hs]; congruence).
    cbn. by rewrite IH.
  - rewrite decide_True by (by apply eq_None_not_Some).
    rewrite <- Permutation_middle. by rewrite IH.
Qed.

Lemma own_order_plain l : plain_ids l → own_order l = l.
Proof.
  unfold plain_ids. intros Hall. unfold own_order.
  rewrite (filter_none (λ srv, is_Some (array_index (s_string srv)))).
  - cbn. apply filter_all. by apply Forall_forall.
  - rewrite Forall_forall in Hall. intros x Hx [? Hs].
    rewrite (Hall x Hx) in Hs. done.
Qed.

Lemma filter_own_order (P : Server → Prop) `{!∀ x, Decision (P x)} l :
  filter P (own_order l) = own_order (filter P l).
Proof.
  unfold own_order.
  by rewrite filter_app, filter_sort_indexed, !(filter_swap P).
Qed.

Lemma connections_set_fresh srv conns :
  s_string srv ∉ s_string <$> conns → connections_set srv conns = conns ++ [srv].
Proof.
  induction conns as [|c conns IH]; [done|].
  rewrite fmap_cons, not_elem_of_cons. intros [Hne Hnot].
  cbn [connections_set]. rewrite decide_False by congruence.
  cbn. by rewrite IH.
Qed.

Lemma connections_current acc ss :
  NoDup (s_string <$> acc ++ ss) →
  foldl (λ conns srv, connections_set srv conns) acc ss = acc ++ ss.
Proof.
  revert acc. induction ss as [|srv ss IH]; intros acc Hnd; cbn [foldl].
  - by rewrite app_nil_r.
  - rewrite connections_set_fresh.
    + rewrite IH; [by rewrite <- app_assoc|]. by rewrite <- app_assoc.
    + rewrite fmap_app, fmap_cons in Hnd.
      apply NoDup_app in Hnd as (_ & Hdisj & _).
      intros Hin. apply (Hdisj _ Hin). apply elem_of_cons. by left.
Qed.

Lemma connections_new current news :
  foldl (λ conns srv,
           if connections_has (s_string srv) conns then conns
           else connections_set srv conns) current news =
  current ++ fresh_servers (s_string <$> current) news.
Proof.
  revert current. induction news as [|srv news IH]; intros current; cbn [foldl].
  - cbn. by rewrite app_nil_r.
  - cbn [fresh_servers].
    assert (connections_has (s_string srv) current =
            bool_decide (s_string srv ∈ s_string <$> current)) as -> by done.
    destruct (bool_decide_reflect (s_string srv ∈ s_string <$> current))
      as [Hin|Hin].
    + apply IH.
    + rewrite connections_set_fresh by done. rewrite IH.
      by rewrite fmap_app, <- app_assoc.
Qed.

Lemma add_servers_fresh news h :
  NoDup (ids h) →
  add_servers news h =
    with_servers
      (parse_vnodes (own_order (servers h ++ fresh_servers (ids h) news)))
      (own_order (servers h ++ fresh_servers (ids h) news)) h.
Proof.
  intros Hnd. unfold add_servers.
  rewrite (connections_current [] (servers h)) by done. cbn [app].
  by rewrite connections_new.
Qed.

Lemma fresh_servers_ids seen news :
  NoDup seen → NoDup (seen ++ (s_string <$> fresh_servers seen news)).
Proof.
  revert seen. induction news as [|srv news IH]; intros seen Hnd; cbn.
  - by rewrite app_nil_r.
  - destruct (bool_decide_reflect (s_string srv ∈ seen)) as [Hin|Hin].
    + by apply IH.
    + rewrite fmap_cons.
      replace (seen ++ s_string srv :: (s_string <$> fresh_servers (seen ++ [s_string srv]) news))
        with ((seen ++ [s_string srv]) ++
              (s_string <$> fresh_servers (seen ++ [s_string srv]) news))
        by (by rewrite <- app_assoc).
      apply IH.
      apply NoDup_app. split; [done|]. split; [|apply NoDup_singleton].
      intros x Hx ->%list_elem_of_singleton. done.
Qed.

Lemma fresh_servers_all seen news :
  NoDup (seen ++ (s_string <$> news)) → fresh_servers seen news = news.
Proof.
  revert seen. induction news as [|srv news IH]; intros seen Hnd; [done|].
  cbn [fresh_servers]. rewrite fmap_cons in Hnd.
  destruct (bool_decide_reflect (s_string srv ∈ seen)) as [Hin|Hin].
  - apply NoDup_app in Hnd as (_ & Hdisj & _).
    destruct (Hdisj _ Hin). apply elem_of_cons. by left.
  - rewrite IH; [done|]. by rewrite <- app_assoc.
Qed.

Lemma fresh_servers_sub seen news srv :
  srv ∈ fresh_servers seen news → srv ∈ news.
Proof.
  revert seen. induction news as [|n news IH]; intros seen; [done|].
  cbn [fresh_servers]. destruct (bool_decide (s_string n ∈ seen)).
  - intros Hin. apply elem_of_cons. right. by apply (IH seen).
  - intros [->|Hin]%elem_of_cons; apply elem_of_cons; [by left|].
    right. by apply (IH (seen ++ [s_string n])).
Qed.

(** X8: on a server set with distinct ids, [add] keeps every server it has
    as it is (an id already present is skipped, whatever the new record
    says) and takes each new id once; the servers are then listed as the
    dictionary that collected them enumerates its keys: ids that are array
    indices first, ascending, then the others as they were written. When no
    id is an array index, the new servers are appended in their order. The
    ids stay distinct and the cache is emptied. *)
Theorem add_takes_fresh (news : list Server) (h h' : HashRing) :
  NoDup (ids h) → add news h = Ret h' →
  servers h' = own_order (servers h ++ fresh_servers (ids h) news) ∧
  (plain_ids (servers h ++ news) →
   servers h' = servers h ++ fresh_servers (ids h) news) ∧
  NoDup (ids h') ∧
  entries (cache h') = [].
Proof.
  intros Hnd Hadd. unfold add in Hadd. rewrite add_servers_fresh in Hadd by done.
  destruct (continuum_frame _ _ Hadd) as (Hss & _ & _ & _ & _ & Hca & _).
  cbn in Hss. split; [done|]. split; [|split; [|by rewrite Hca]].
  - intros Hplain. rewrite Hss. apply own_order_plain.
    unfold plain_ids in *. rewrite Forall_app in Hplain |- *.
    destruct Hplain as [Hcur Hnews]. split; [done|].
    rewrite Forall_forall in Hnews |- *. intros x Hx.
    by apply Hnews, (fresh_servers_sub (ids h)).
  - unfold ids. rewrite Hss, own_order_perm, fmap_app.
    by apply fresh_servers_ids.
Qed.

Lemma add_takes_fresh_witness :
  servers (state_of (add [demo_server "A" 7 9; demo_server "7" 1 0]
                         (state_of demo_pair))) =
    own_order (servers (state_of demo_pair) ++
               fresh_servers (ids (state_of demo_pair))
                             [demo_server "A" 7 9; demo_server "7" 1 0]) ∧
  (plain_ids (servers (state_of demo_pair) ++
              [demo_server "A" 7 9; demo_server "7" 1 0]) →
   servers (state_of (add [demo_server "A" 7 9; demo_server "7" 1 0]
                          (state_of demo_pair))) =
     servers (state_of demo_pair) ++
     fresh_servers (ids (state_of demo_pair))
                   [demo_server "A" 7 9; demo_server "7" 1 0]) ∧
  NoDup (ids (state_of (add [demo_server "A" 7 9; demo_server "7" 1 0]
                            (state_of demo_pair)))) ∧
  entries (cache (state_of (add [demo_server "A" 7 9; demo_server "7" 1 0]
                                (state_of demo_pair)))) = [].
Proof.
  apply (add_takes_fresh [demo_server "A" 7 9; demo_server "7" 1 0]
                         (state_of demo_pair)).
  - apply (bool_decide_unpack _). vm_compute. exact I.
  - vm_compute. reflexivity.
Defined.

(** The servers [b], [10] and [1], added in this order to an empty
    instance, are listed as [1], [10], [b]. *)
Lemma add_lists_indices_first :
  ids (state_of (add [demo_server "b" 1 0; demo_server "10" 1 0;
                      demo_server "1" 1 0]
                     (end_ (state_of demo_pair)))) = ["1"; "10"; "b"].
Proof. vm_compute. reflexivity. Qed.

(** ** Rebuilding is constructing *)

Lemma reset_as_initial h ss algorithm options :
  configuration h = configuration (initial ss algorithm options) →
  reset (with_servers (parse_vnodes ss) ss h) = initial ss algorithm options.
Proof.
  destruct h as [p v hs rp r sz vs srvs [ms es]].
  unfold configuration. cbn. intros [= -> -> -> -> ->]. reflexivity.
Qed.

Lemma construct_configuration ss ss' algorithm options h :
  construct ss algorithm options = Ret h →
  configuration h = configuration (initial ss' algorithm options).
Proof.
  intros Hc. unfold configuration.
  destruct (continuum_frame _ _ Hc) as (_ & _ & -> & -> & -> & -> & ->).
  done.
Qed.

Lemma parse_vnodes_filter s ss :
  parse_vnodes (filter (λ srv, s_string srv ≠ s) ss) =
  delete s (parse_vnodes ss).
Proof.
  unfold parse_vnodes. rewrite <- (delete_empty (M:=gmap string) s) at 1.
  generalize (∅ : gmap string jsval) as m.
  induction ss as [|srv ss IH]; intros m; [done|].
  rewrite filter_cons. cbn [foldl].
  destruct (decide (s_string srv ≠ s)) as [Hne|Heq].
  - cbn [foldl]. rewrite <- IH. f_equal.
    by rewrite delete_insert_ne.
  - apply dec_stable in Heq. rewrite <- IH. f_equal.
    rewrite <- Heq. by rewrite delete_insert_eq.
Qed.

Lemma add_after_construct (ss news : list Server)
    (algorithm : string → hashed) (options : Options) (h : HashRing) :
  NoDup (s_string <$> ss ++ news) →
  construct ss algorithm options = Ret h →
  add news h = construct (own_order (ss ++ news)) algorithm options.
Proof.
  intros Hnd Hc.
  pose proof (construct_configuration ss (own_order (ss ++ news)) _ _ h Hc)
    as Hconf.
  destruct (continuum_frame _ _ Hc) as (Hss & _).
  cbn in Hss. rewrite fmap_app in Hnd.
  unfold add. rewrite add_servers_fresh.
  - unfold ids. rewrite Hss, (fresh_servers_all _ news Hnd).
    by rewrite (reset_as_initial h _ algorithm options).
  - unfold ids. rewrite Hss. by apply NoDup_app in Hnd as (? & _).
Qed.

(** X9: adding servers to a freshly constructed instance gives the very
    instance that a construction from all of them, in the order in which a
    dictionary keyed by their ids enumerates them, gives (ids distinct):
    the same server set, vnode dictionary, ring and empty cache. When no id
    is an array index that is the construction from the old servers
    followed by the new ones. *)
Theorem construct_then_add (ss news : list Server)
    (algorithm : string → hashed) (options : Options) (h : HashRing) :
  NoDup (s_string <$> ss ++ news) →
  construct ss algorithm options = Ret h →
  add news h = construct (own_order (ss ++ news)) algorithm options ∧
  (plain_ids (ss ++ news) →
   add news h = construct (ss ++ news) algorithm options).
Proof.
  intros Hnd Hc.
  pose proof (add_after_construct ss news algorithm options h Hnd Hc) as Hadd.
  split; [done|]. intros Hplain. by rewrite Hadd, own_order_plain.
Qed.

Lemma construct_then_add_witness :
  add [demo_server "S" 1 0] (state_of demo_pair) =
    construct (own_order ([demo_server "A" 1 0; demo_server "B" 1 0] ++
                          [demo_server "S" 1 0]))
              demo_hash (demo_options 1) ∧
  (plain_ids ([demo_server "A" 1 0; demo_server "B" 1 0] ++
              [demo_server "S" 1 0]) →
   add [demo_server "S" 1 0] (state_of demo_pair) =
     construct ([demo_server "A" 1 0; demo_server "B" 1 0] ++
                [demo_server "S" 1 0])
               demo_hash (demo_options 1)).
Proof.
  apply (construct_then_add [demo_server "A" 1 0; demo_server "B" 1 0]
                            [demo_server "S" 1 0]).
  - apply (bool_decide_unpack _). vm_compute. exact I.
  - vm_compute. reflexivity.
Defined.

Lemma remove_after_construct (ss : list Server) (s : string)
    (algorithm : string → hashed) (options : Options) (h : HashRing) :
  construct ss algorithm options = Ret h →
  remove s h =
    construct (filter (λ srv, s_string srv ≠ s) ss) algorithm options.
Proof.
  intros Hc.
  pose proof (construct_configuration
                ss (filter (λ srv, s_string srv ≠ s) ss) _ _ h Hc) as Hconf.
  destruct (continuum_frame _ _ Hc) as (Hss & Hvs & _).
  cbn in Hss, Hvs.
  unfold remove, remove_server. rewrite Hss, Hvs, <- parse_vnodes_filter.
  by rewrite (reset_as_initial h _ algorithm options).
Qed.

(** X10: removing a server from a freshly constructed instance gives the
    very instance that a construction without that server gives. *)
Theorem construct_then_remove (ss : list Server) (s : string)
    (algorithm : string → hashed) (options : Options) (h : HashRing) :
  construct ss algorithm options = Ret h →
  remove s h =
    construct (filter (λ srv, s_string srv ≠ s) ss) algorithm options.
Proof. apply remove_after_construct. Qed.

Lemma construct_then_remove_witness :
  remove "S" (state_of demo_weighted) =
  construct (filter (λ srv, s_string srv ≠ "S")
               [demo_server "A" 1 0; demo_server "B" 1 0; demo_server "S" 2 0])
            demo_hash (demo_options 2).
Proof.
  apply (construct_then_remove
           [demo_server "A" 1 0; demo_server "B" 1 0; demo_server "S" 2 0] "S").
  vm_compute. reflexivity.
Defined.

(** X11: [end] empties the instance, and it can be filled again: [add]
    after [end] gives the very instance that a construction with the same
    configuration gives from the added servers in the order in which a
    dictionary keyed by their ids enumerates them (ids distinct); when no
    id is an array index, from the added servers as they are given. *)
Theorem end_then_add (news : list Server) (algorithm : string → hashed)
    (options : Options) (h : HashRing) :
  configuration h = configuration (initial news algorithm options) →
  NoDup (s_string <$> news) →
  ring (end_ h) = [] ∧ servers (end_ h) = [] ∧ vnodes (end_ h) = ∅ ∧
  entries (cache (end_ h)) = [] ∧
  add news (end_ h) = construct (own_order news) algorithm options ∧
  (plain_ids news → add news (end_ h) = construct news algorithm options).
Proof.
  intros Hconf Hnd.
  assert (add news (end_ h) = construct (own_order news) algorithm options)
    as Hadd.
  { unfold add. rewrite add_servers_fresh by constructor.
    cbn [servers end_ with_servers app ids fmap list_fmap].
    rewrite (fresh_servers_all [] news Hnd).
    by rewrite (reset_as_initial (end_ h) _ algorithm options). }
  repeat split; [done|]. intros Hplain. by rewrite Hadd, own_order_plain.
Qed.

Lemma end_then_add_witness :
  ring (end_ (state_of demo_weighted)) = [] ∧
  servers (end_ (state_of demo_weighted)) = [] ∧
  vnodes (end_ (state_of demo_weighted)) = ∅ ∧
  entries (cache (end_ (state_of demo_weighted))) = [] ∧
  add [demo_server "B" 1 0; demo_server "2" 1 0; demo_server "1" 1 0]
      (end_ (state_of demo_weighted)) =
    construct (own_order [demo_server "B" 1 0; demo_server "2" 1 0;
                          demo_server "1" 1 0])
              demo_hash (demo_options 2) ∧
  (plain_ids [demo_server "B" 1 0; demo_server "2" 1 0; demo_server "1" 1 0] →
   add [demo_server "B" 1 0; demo_server "2" 1 0; demo_server "1" 1 0]
       (end_ (state_of demo_weighted)) =
     construct [demo_server "B" 1 0; demo_server "2" 1 0; demo_server "1" 1 0]
               demo_hash (demo_options 2)).
Proof.
  apply (end_then_add [demo_server "B" 1 0; demo_server "2" 1 0;
                       demo_server "1" 1 0]
                      demo_hash (demo_options 2) (state_of demo_weighted)).
  - vm_compute. reflexivity.
  - apply (bool_decide_unpack _). vm_compute. exact I.
Defined.

(** ** Generating the continuum again *)

(** X12: on an instance whose ring is the continuum of its server set,
    [continuum] called again without a [reset] overwrites the ring with the
    same nodes: it returns the instance unchanged. *)
Theorem continuum_again (h : HashRing) :
  built h → size h = Z.of_nat (length (ring h)) → continuum h = Ret h.
Proof.
  intros Hb Hsz. destruct (built_ring h Hb) as (ns & Hns & Hring).
  destruct (decide (servers h = [])) as [Hss|Hss]; [by apply continuum_empty|].
  rewrite (placed_nodes_frame _ h) in Hns by done.
  rewrite (continuum_placed h ns Hss Hns).
  assert (write_from_start ns (ring h) = ns) as ->.
  { unfold write_from_start.
    rewrite drop_ge; [by rewrite app_nil_r|].
    by rewrite Hring, sort_ring_length. }
  rewrite <- Hring, <- Hsz. by destruct h.
Qed.

Lemma continuum_again_witness :
  continuum (state_of demo_weighted) = Ret (state_of demo_weighted).
Proof.
  apply (continuum_again (state_of demo_weighted)).
  - apply (construct_built
             [demo_server "A" 1 0; demo_server "B" 1 0; demo_server "S" 2 0]
             demo_hash (demo_options 2)).
    vm_compute. reflexivity.
  - vm_compute. reflexivity.
Defined.

(** ** [range] without [unique], and without a size *)

(** One collecting loop with [unique] off: every node visited is pushed. *)
Lemma collect_all r sz idx ns acc :
  Forall2 (λ i n, r !! i = Some n) idx ns → (length acc < sz)%nat →
  collect r sz false idx acc =
    Ret (if decide (sz ≤ length (acc ++ (server <$> ns)))%nat
         then inl (take sz (acc ++ (server <$> ns)))
         else inr (acc ++ (server <$> ns))).
Proof.
  intros Hall. revert acc.
  induction Hall as [|i n idx ns Hi _ IH]; intros acc Hlen.
  - cbn. rewrite app_nil_r.
    destruct (decide (sz ≤ length acc)%nat); [lia|done].
  - cbn [collect]. rewrite Hi, fmap_cons. cbn [andb].
    replace (acc ++ server n :: (server <$> ns))
      with ((acc ++ [server n]) ++ (server <$> ns))
      by (by rewrite <- app_assoc).
    destruct (bool_decide_reflect (length (acc ++ [server n]) = sz)) as [Heq|Hne].
    + rewrite length_app.
      destruct (decide (sz ≤ length (acc ++ [server n]) +
                            length (server <$> ns))%nat); [|lia].
      by rewrite take_app_length'.
    + apply IH. rewrite length_app in *. cbn in *. lia.
Qed.

Lemma range_all h key n i :
  ring_sized h → ring h ≠ [] → (0 < n)%nat →
  find h (hashValue h key) = Ret i → 0 ≤ i < Z.of_nat (length (ring h)) →
  range key (Some n) (Some false) h =
    Ret (take n (ring_walk (ring h) (Z.to_nat i))).
Proof.
  intros [Hsize Hbig] Hne Hn Hi Hrange. unfold range.
  destruct (Z.eqb_spec (size h) 0) as [Hz|_].
  { destruct (ring h); [done|]. cbn in *. lia. }
  rewrite Hi. cbn [mbind result_bind default from_option].
  change (id false) with false.
  destruct n as [|n]; [lia|].
  set (p := Z.to_nat i). set (len := length (ring h)).
  rewrite (collect_all (ring h) (S n) (seq p (len - p))
             (take (len - p) (drop p (ring h))) []);
    [|apply seq_lookup_nodes; lia|cbn; lia].
  rewrite take_ge by (rewrite length_drop; lia).
  unfold ring_walk. rewrite fmap_app. cbn [app].
  destruct (decide (S n ≤ length (server <$> drop p (ring h)))%nat)
    as [Hfull|Hshort]; cbn [mbind result_bind].
  - by rewrite take_app_le by lia.
  - rewrite (collect_all (ring h) (S n) (seq 0 p) (take p (ring h))
               (server <$> drop p (ring h)));
      [|apply (seq_lookup_nodes (ring h) 0 p); lia|lia].
    destruct (decide (S n ≤ length ((server <$> drop p (ring h)) ++
                                     (server <$> take p (ring h))))%nat)
      as [|Hshort']; cbn [mbind result_bind]; [done|].
    rewrite (take_ge (_ ++ _)); [done|lia].
Qed.

(** X13: on a non-empty ring, [range(key, n, false)] for a positive [n]
    returns the servers of the first [n] nodes met on the ring walked from
    [find(hashValue(key))] to its end and then from its start, repeats
    included: [min(n, ring length)] of them, never more than one turn of
    the ring, the first being the server [get] answers. *)
Theorem range_repeats (h : HashRing) (key : string) (n : nat) :
  ring_sized h → ring h ≠ [] → (0 < n)%nat →
  ∃ p res,
    find h (hashValue h key) = Ret (Z.of_nat p) ∧
    range key (Some n) (Some false) h = Ret res ∧
    res = take n (ring_walk (ring h) p) ∧
    length res = (n `min` length (ring h))%nat ∧
    owner h key = Ret (head res).
Proof.
  intros Hsz Hne Hn.
  destruct (find_in_ring h (hashValue h key) Hsz Hne) as (i & Hi & Hrange).
  exists (Z.to_nat i), (take n (ring_walk (ring h) (Z.to_nat i))).
  split; [by rewrite Z2Nat.id by lia|].
  split; [by apply range_all|]. split; [done|]. split.
  - rewrite length_take. unfold ring_walk.
    rewrite length_fmap, length_app, length_drop, length_take. lia.
  - unfold owner. rewrite Hi. cbn. f_equal.
    unfold ring_at. destruct (Z.ltb_spec i 0); [lia|].
    destruct n as [|n]; [lia|].
    destruct (lookup_lt_is_Some_2 (ring h) (Z.to_nat i)) as [m Hm]; [lia|].
    rewrite Hm. unfold ring_walk. by rewrite (drop_S _ m _ Hm).
Qed.

Lemma range_repeats_witness :
  ∃ p res,
    find (state_of demo_weighted) (hashValue (state_of demo_weighted) "m") =
      Ret (Z.of_nat p) ∧
    range "m" (Some 5%nat) (Some false) (state_of demo_weighted) = Ret res ∧
    res = take 5 (ring_walk (ring (state_of demo_weighted)) p) ∧
    length res = (5 `min` length (ring (state_of demo_weighted)))%nat ∧
    owner (state_of demo_weighted) "m" = Ret (head res).
Proof.
  apply (range_repeats (state_of demo_weighted) "m" 5).
  - split; vm_compute; reflexivity.
  - vm_compute. discriminate.
  - lia.
Defined.

Lemma range_distinct h key n i :
  ring_sized h → ring h ≠ [] → (0 < n)%nat →
  find h (hashValue h key) = Ret i → 0 ≤ i < Z.of_nat (length (ring h)) →
  range key (Some n) (Some true) h =
    Ret (take n (distinct_after [] (ring_walk (ring h) (Z.to_nat i)))).
Proof.
  intros [Hsize Hbig] Hne Hn Hi Hrange. unfold range.
  destruct (Z.eqb_spec (size h) 0) as [Hz|_].
  { destruct (ring h); [done|]. cbn in *. lia. }
  rewrite Hi. cbn [mbind result_bind default from_option].
  change (id true) with true.
  destruct n as [|n]; [lia|].
  set (p := Z.to_nat i). set (len := length (ring h)).
  rewrite (collect_unique (ring h) (S n) (seq p (len - p))
             (take (len - p) (drop p (ring h))) []);
    [|apply seq_lookup_nodes; lia|cbn; lia].
  rewrite take_ge by (rewrite length_drop; lia).
  unfold ring_walk. rewrite fmap_app, distinct_after_app.
  set (first := distinct_after [] (server <$> drop p (ring h))).
  destruct (decide (S n ≤ length first)%nat) as [Hfull|Hshort];
    cbn [mbind result_bind].
  - destruct (distinct_after_prefix first (server <$> take p (ring h)))
      as [suffix ->].
    by rewrite take_app_le by lia.
  - rewrite (collect_unique (ring h) (S n) (seq 0 p) (take p (ring h)) first);
      [|apply (seq_lookup_nodes (ring h) 0 p); lia|lia].
    destruct (decide (S n ≤ length (distinct_after first
                        (server <$> take p (ring h))))%nat) as [|Hshort'];
      cbn [mbind result_bind]; [done|].
    rewrite (take_ge (distinct_after _ _)); [done|lia].
Qed.

(** X14: in a state an instance goes through whose ring is not empty,
    [range(key)] with no size and no [unique] returns every server that has
    a node on the ring exactly once, in the order the ring walk from the
    key's position first meets them. *)
Theorem range_default_lists_all (h : HashRing) (key : string) :
  reachable h → size h < 2 ^ 30 → ring h ≠ [] →
  ∃ p res,
    find h (hashValue h key) = Ret (Z.of_nat p) ∧
    range key None None h = Ret res ∧
    res = distinct_after [] (ring_walk (ring h) p) ∧
    NoDup res ∧
    (∀ s, s ∈ res ↔ ∃ n, n ∈ ring h ∧ server n = s).
Proof.
  intros Hr Hbig Hne.
  destruct (reachable_invariant h Hr) as (Hsz & _ & _ & _ & Hem).
  destruct (reachable_keeps h Hr) as (Hin & _).
  assert (ring_sized h) as Hsized by (by split).
  destruct (find_in_ring h (hashValue h key) Hsized Hne) as (i & Hi & Hrange).
  set (full := distinct_after [] (ring_walk (ring h) (Z.to_nat i))).
  assert (∀ s, s ∈ full ↔ ∃ n, n ∈ ring h ∧ server n = s) as Hfull.
  { intros s. subst full. rewrite distinct_after_elem, elem_of_nil.
    unfold ring_walk. rewrite list_elem_of_fmap.
    split.
    - intros [[]|(n & -> & Hn)]. exists n. split; [|done].
      apply elem_of_app in Hn as [Hn|Hn].
      + apply list_elem_of_lookup in Hn as [j Hj].
        rewrite lookup_drop in Hj. by eapply list_elem_of_lookup_2.
      + apply list_elem_of_lookup in Hn as [j Hj].
        apply lookup_take_Some in Hj as [Hj _]. by eapply list_elem_of_lookup_2.
    - intros (n & Hn & <-). right. exists n. split; [done|].
      rewrite <- (take_drop (Z.to_nat i) (ring h)) in Hn.
      apply elem_of_app. apply elem_of_app in Hn as [?|?]; [by right|by left]. }
  assert (NoDup full) as Hnd by apply distinct_after_NoDup, NoDup_nil_2.
  assert (length full ≤ length (servers h))%nat as Hlen.
  { rewrite <- (length_fmap s_string (servers h)).
    apply submseteq_length, NoDup_submseteq; [done|].
    intros s Hs. apply Hfull in Hs as (n & Hn & <-). by apply Hin. }
  assert (servers h ≠ []) as Hss by (intros Hc; by apply Hne, Hem).
  exists (Z.to_nat i), full. split; [by rewrite Z2Nat.id by lia|].
  split; [|done].
  unfold range at 1.
  assert (range key (Some (length (servers h))) (Some true) h = Ret full) as Hres.
  { rewrite (range_distinct h key _ i); try done.
    - by rewrite take_ge.
    - destruct (servers h); [done|]. cbn. lia. }
  unfold range in Hres. destruct (size h =? 0); [done|].
  destruct (length (servers h)) eqn:Hl; [by destruct (servers h)|].
  exact Hres.
Qed.

Lemma range_default_lists_all_witness :
  ∃ p res,
    find (state_of demo_pair) (hashValue (state_of demo_pair) "k") =
      Ret (Z.of_nat p) ∧
    range "k" None None (state_of demo_pair) = Ret res ∧
    res = distinct_after [] (ring_walk (ring (state_of demo_pair)) p) ∧
    NoDup res ∧
    (∀ s, s ∈ res ↔ ∃ n, n ∈ ring (state_of demo_pair) ∧ server n = s).
Proof.
  apply (range_default_lists_all (state_of demo_pair) "k").
  - exact demo_pair_reachable.
  - vm_compute. reflexivity.
  - vm_compute. discriminate.
Defined.

(** ** The legacy aliases *)

Lemma notify_notified c l :
  notified (notify c l) = {[api_from c]} ∪ notified l.
Proof.
  unfold notify. destruct (decide (api_from c ∈ notified l)); [|done].
  set_solver.
Qed.

Lemma notify_all_notified cs l :
  notified (notify_all cs l) = notified l ∪ list_to_set (api_from <$> cs).
Proof.
  revert l. induction cs as [|c cs IH]; intros l.
  - cbn. set_solver.
  - unfold notify_all in *. cbn [foldl]. rewrite IH, notify_notified.
    rewrite fmap_cons. cbn. set_solver.
Qed.

Lemma notify_console c l :
  length (console (notify c l)) =
  (if decide (api_from c ∈ notified l) then length (console l)
   else length (console l) + 4)%nat.
Proof.
  unfold notify. destruct (decide (api_from c ∈ notified l)); [done|].
  cbn. by rewrite length_app.
Qed.

Lemma notify_all_console cs l :
  (length (console l) = 4 * base.size (notified l))%nat →
  (length (console (notify_all cs l)) = 4 * base.size (notified (notify_all cs l)))%nat.
Proof.
  revert l. induction cs as [|c cs IH]; intros l Hl; [done|].
  unfold notify_all in *. cbn [foldl]. apply IH.
  rewrite notify_console, notify_notified.
  destruct (decide (api_from c ∈ notified l)) as [Hin|Hin].
  - replace ({[api_from c]} ∪ notified l) with (notified l) by set_solver. done.
  - rewrite size_union by set_solver. rewrite size_singleton. lia.
Qed.

Lemma api_from_known c :
  api_from c ∈ (list_to_set ["replaceServer"; "replace"; "removeServer";
                             "addServer"; "getNode"; "getNodePosition";
                             "position"] : gset string).
Proof. destruct c; cbn; set_solver. Qed.

(** X15: the legacy aliases write their deprecation note once. After any
    sequence of alias calls the console holds four lines for each alias
    that was called, so at most 28; a call of an alias that was called
    before writes nothing, a first call writes four lines. [replace] and
    [replaceServer] have no replacement: they return nothing and leave the
    instance as it is (no swap is made). *)
Theorem legacy_notes_once (cs : list legacy_call) (c : legacy_call)
    (h : HashRing) (a b : string) :
  (length (console (notify_all cs no_legacy)) =
     4 * base.size (notified (notify_all cs no_legacy)))%nat ∧
  (length (console (notify_all cs no_legacy)) ≤ 28)%nat ∧
  (api_from c ∈ api_from <$> cs →
   (depricating c (notify_all cs no_legacy) h).1 = notify_all cs no_legacy) ∧
  (api_from c ∉ api_from <$> cs →
   length (console (depricating c (notify_all cs no_legacy) h).1) =
     (length (console (notify_all cs no_legacy)) + 4)%nat) ∧
  (depricating (Replace a b) (notify_all cs no_legacy) h).2 = Ret (NoValue, h) ∧
  (depricating (ReplaceServer a b) (notify_all cs no_legacy) h).2 =
    Ret (NoValue, h).
Proof.
  pose proof (notify_all_console cs no_legacy eq_refl) as Hlen.
  pose proof (notify_all_notified cs no_legacy) as Hnot.
  split; [done|]. split; [|split; [|split; [|done]]].
  - rewrite Hlen.
    assert (base.size (notified (notify_all cs no_legacy)) ≤ 7)%nat; [|lia].
    change 7%nat with
      (length ["replaceServer"; "replace"; "removeServer"; "addServer";
               "getNode"; "getNodePosition"; "position"]).
    rewrite <- (size_list_to_set (C:=gset string));
      [|apply (bool_decide_unpack _); vm_compute; exact I].
    apply subseteq_size. rewrite Hnot. intros x Hx.
    apply elem_of_union in Hx as [Hx|Hx]; [by apply elem_of_empty in Hx|].
    apply elem_of_list_to_set, list_elem_of_fmap in Hx as (c' & -> & _).
    apply api_from_known.
  - intros Hin. cbn. unfold notify.
    rewrite decide_True; [done|]. rewrite Hnot. set_solver.
  - intros Hin. cbn. rewrite notify_console.
    rewrite decide_False; [done|]. rewrite Hnot. set_solver.
Qed.

(** ** Adding and removing again *)

(** X16: on a freshly constructed instance with distinct ids, adding a
    server with a new id and then removing it gives the very instance that
    a construction from the old servers, in the order in which a dictionary
    keyed by their ids enumerates them, gives. When no old id is an array
    index this is exactly the instance as it was constructed: server set,
    vnode dictionary, ring and empty cache. *)
Theorem add_then_remove (ss : list Server) (srv : Server)
    (algorithm : string → hashed) (options : Options) (h h1 : HashRing) :
  NoDup (s_string <$> ss ++ [srv]) →
  construct ss algorithm options = Ret h →
  add [srv] h = Ret h1 →
  remove (s_string srv) h1 = construct (own_order ss) algorithm options ∧
  (plain_ids ss → remove (s_string srv) h1 = Ret h).
Proof.
  intros Hnd Hc Hadd.
  rewrite (add_after_construct ss [srv] algorithm options h Hnd Hc) in Hadd.
  rewrite (remove_after_construct _ (s_string srv) algorithm options h1 Hadd).
  assert (filter (λ x, s_string x ≠ s_string srv) (own_order (ss ++ [srv])) =
          own_order ss) as ->.
  { rewrite filter_own_order, filter_app, filter_cons, filter_nil.
    rewrite decide_False by (intros Hc'; by apply Hc').
    rewrite app_nil_r, filter_all; [done|].
    intros x Hx Heq. rewrite fmap_app in Hnd.
    apply NoDup_app in Hnd as (_ & Hdisj & _).
    apply (Hdisj (s_string x)).
    - apply list_elem_of_fmap. by exists x.
    - rewrite Heq. cbn. apply elem_of_cons. by left. }
  split; [done|]. intros Hplain. by rewrite own_order_plain.
Qed.

Lemma add_then_remove_witness :
  remove (s_string (demo_server "7" 1 0))
         (state_of (add [demo_server "7" 1 0] (state_of demo_pair))) =
    construct (own_order [demo_server "A" 1 0; demo_server "B" 1 0])
              demo_hash (demo_options 1) ∧
  (plain_ids [demo_server "A" 1 0; demo_server "B" 1 0] →
   remove (s_string (demo_server "7" 1 0))
          (state_of (add [demo_server "7" 1 0] (state_of demo_pair))) =
   Ret (state_of demo_pair)).
Proof.
  apply (add_then_remove [demo_server "A" 1 0; demo_server "B" 1 0]
                         (demo_server "7" 1 0) demo_hash (demo_options 1)).
  - apply (bool_decide_unpack _). vm_compute. exact I.
  - vm_compute. reflexivity.
  - vm_compute. reflexivity.
Defined.

(** ** Points per server *)

Lemma coordinates_of_sort srv l :
  length (coordinates_of srv (sort_ring l)) = length (coordinates_of srv l).
Proof.
  unfold coordinates_of. rewrite !length_fmap, filter_sort_ring.
  apply sort_ring_length.
Qed.

Lemma placed_nodes_of h ss ns srv k :
  placed_nodes h ss = Ret ns → NoDup (s_string <$> ss) → srv ∈ ss →
  for_turns (points_length h srv) = Ret k →
  length (coordinates_of (s_string srv) ns) = (k * replicas h)%nat.
Proof.
  revert ns. induction ss as [|s0 ss IH]; intros ns Hns Hnd Hin Hk.
  { by apply elem_of_nil in Hin. }
  cbn [placed_nodes] in Hns.
  destruct (server_nodes h s0) as [ns1| |] eqn:Hns1; [|done..].
  destruct (placed_nodes h ss) as [rest| |] eqn:Hrest; [|done..].
  injection Hns as <-. rewrite fmap_cons in Hnd.
  apply NoDup_cons in Hnd as [Hnotin Hnd].
  rewrite coordinates_of_app, length_app.
  destruct (decide (s_string s0 = s_string srv)) as [Heq|Hne].
  - assert (coordinates_of (s_string srv) rest = []) as ->.
    { unfold coordinates_of. rewrite filter_none; [done|].
      intros n Hn Hs. apply Hnotin. rewrite Heq, <- Hs.
      by apply (placed_nodes_owned h ss rest Hrest). }
    assert (s0 = srv) as ->.
    { apply elem_of_cons in Hin as [->|Hin]; [done|].
      destruct Hnotin. rewrite Heq. apply list_elem_of_fmap. by exists srv. }
    unfold server_nodes in Hns1. rewrite Hk in Hns1. injection Hns1 as <-.
    unfold coordinates_of. rewrite filter_all.
    + rewrite length_fmap, vnode_nodes_length, length_seq. cbn. lia.
    + intros n Hn. by apply (vnode_nodes_server h srv (seq 0 k)).
  - assert (coordinates_of (s_string srv) ns1 = []) as ->.
    { unfold coordinates_of. rewrite filter_none; [done|].
      intros n Hn Hs. apply Hne. rewrite <- Hs. symmetry.
      by apply (server_nodes_server h s0 ns1). }
    cbn. apply IH; try done.
    apply elem_of_cons in Hin as [->|Hin]; [done|done].
Qed.

(** X17: after a construction from servers with distinct ids, a server
    whose [length_i] is the integer [z] has [z * replicas] nodes on the
    ring (none for a negative [z]). *)
Theorem server_point_count (ss : list Server) (algorithm : string → hashed)
    (options : Options) (h : HashRing) (srv : Server) (z : Z) :
  construct ss algorithm options = Ret h →
  NoDup (s_string <$> ss) → srv ∈ ss →
  points_length h srv = Int z →
  length (coordinates_of (s_string srv) (ring h)) =
    (Z.to_nat z * replicas h)%nat.
Proof.
  intros Hc Hnd Hin Hz. unfold construct, continuum in Hc.
  destruct (bool_decide_reflect (servers (initial ss algorithm options) = []))
    as [Hs|Hs].
  { cbn in Hs. subst ss. by apply elem_of_nil in Hin. }
  destruct (placed_nodes _ _) as [ns| |] eqn:Hns; [|done..].
  injection Hc as <-. cbn [ring with_ring initial].
  rewrite write_from_start_nil, coordinates_of_sort.
  apply (placed_nodes_of _ ss ns srv (Z.to_nat z) Hns Hnd Hin).
  change (points_length (initial ss algorithm options) srv)
    with (points_length
            (with_ring (sort_ring (write_from_start ns []))
               (Z.of_nat (length (sort_ring (write_from_start ns []))))
               (initial ss algorithm options)) srv).
  by rewrite Hz.
Qed.

Lemma server_point_count_witness :
  length (coordinates_of (s_string (demo_server "S" 2 0))
                         (ring (state_of demo_weighted))) =
    (Z.to_nat 3 * replicas (state_of demo_weighted))%nat.
Proof.
  apply (server_point_count
           [demo_server "A" 1 0; demo_server "B" 1 0; demo_server "S" 2 0]
           demo_hash (demo_options 2)).
  - vm_compute. reflexivity.
  - apply (bool_decide_unpack _). vm_compute. exact I.
  - apply elem_of_cons. right. apply elem_of_cons. right.
    apply elem_of_cons. by left.
  - vm_compute. reflexivity.
Defined.

(** X18: the option ['points per server'] is stored and never read: two
    constructions that differ in it only place the same nodes, and give the
    same ring, server set and vnode dictionary. *)
Theorem points_per_server_unused (ss : list Server)
    (algorithm : string → hashed) (options : Options) (p : option float) :
  ring <$> construct ss algorithm (with_points_per_server p options) =
    ring <$> construct ss algorithm options ∧
  servers <$> construct ss algorithm (with_points_per_server p options) =
    servers <$> construct ss algorithm options ∧
  vnodes <$> construct ss algorithm (with_points_per_server p options) =
    vnodes <$> construct ss algorithm options.
Proof.
  unfold construct, continuum.
  change (servers (initial ss algorithm (with_points_per_server p options)))
    with (servers (initial ss algorithm options)).
  destruct (bool_decide (servers (initial ss algorithm options) = [])); [done|].
  rewrite (placed_nodes_frame _ (initial ss algorithm options)) by done.
  by destruct (placed_nodes _ _).
Qed.

(** ** Reset *)

(** X19: [reset] empties the ring and the cache and keeps the server set
    and the vnode dictionary; until [continuum] is called again, [get]
    answers [undefined] for every key and leaves the instance as it is,
    [range] returns the empty list, and [points] lists no coordinate for
    any server. *)
Theorem reset_silences (h : HashRing) (key : string) (sz : option nat)
    (unique : option bool) (arg : option (list string)) :
  servers (reset h) = servers h ∧ vnodes (reset h) = vnodes h ∧
  get key (reset h) = Ret (None, reset h) ∧
  range key sz unique (reset h) = Ret [] ∧
  ∃ m, points arg (reset h) = Ret m ∧ ∀ s vs, m !! s = Some vs → vs = [].
Proof.
  split; [done|]. split; [done|]. split; [|split].
  - unfold get, cache_get, cache_lookup. cbn [reset cache with_cache
      cache_reset entries assoc].
    unfold find. cbn [size with_cache with_ring Z.to_nat find_loop].
    change (Z.shiftr (ToInt32 (0 + 0)) 1 =? 0) with true. by cbn.
  - done.
  - eexists. split; [done|]. intros s vs. rewrite points_keys.
    destruct (decide _); [|done]. by intros [= <-].
Qed.
